(** * SIL instructions: block membership, trailing records and terminators

    A shallow embedding of [lib/SIL/Instruction.cpp].  Objects live in a
    store indexed by their address; every member function of the source is
    a state transformer over that store that either returns or stops in one
    of the fatal ways the source has ([assert], [llvm_unreachable]) or in
    undefined behaviour. *)

From stdpp Require Import gmap strings list fin_maps.
From Stdlib Require Import ZArith NArith Lia.

Local Open Scope N_scope.

(** ** Outcomes of a call *)

Inductive Failure : Type :=
  | AssertionFailure (msg : string)     (* a failed [assert] (debug build) *)
  | UnreachableExecuted (msg : string)  (* [llvm_unreachable] *)
  | Undefined.                          (* undefined behaviour *)

Inductive Result (A : Type) : Type :=
  | Ok (a : A)
  | Fail (f : Failure).
Arguments Ok {A} a.
Arguments Fail {A} f.

(** ** Identities *)

(** Objects are identified by their address; a null pointer is [None]. *)
Abbreviation InstId := N (only parsing).
Abbreviation BlockId := N (only parsing).

(** [ValueKind]: the discriminator stored in every instruction, one tag per
    class constructed in [Instruction.cpp]. *)
Inductive ValueKind : Type :=
  | AllocVarInst | AllocBoxInst | AllocArrayInst
  | ApplyInst | ClosureInst | ConstantRefInst | ZeroValueInst
  | IntegerLiteralInst | FloatLiteralInst | StringLiteralInst
  | LoadInst | StoreInst | CopyAddrInst | SpecializeInst
  | ImplicitConvertInst | CoerceInst | DowncastInst
  | TupleInst | MetatypeInst
  | ExtractInst | ElementAddrInst | RefElementAddrInst
  | RetainInst | ReleaseInst | DeallocVarInst | DestroyAddrInst
  | IndexAddrInst | IntegerValueInst
  | UnreachableInst | ReturnInst | BranchInst | CondBranchInst.

Global Instance ValueKind_eq_dec : EqDecision ValueKind.
Proof. solve_decision. Defined.

(** ** External collaborators, as far as the source looks into them *)

Inductive Ty : Type :=
  | TheEmptyTupleType
  | TheObjectPointerType
  | FunctionType (Input Output : Ty)
  | LValueType (Object : Ty)
  | NominalType (n : N).

(** [APInt]: a bit width and the unsigned value of the bits. *)
Record APInt : Type := mkAPInt { BitWidth : N; Bits : Z }.

(** [APInt(numBits, val)]: the value is cut to [numBits] bits. *)
Definition APInt_of (numBits : N) (val : Z) : APInt :=
  mkAPInt numBits (val mod 2 ^ Z.of_N numBits)%Z.

Inductive Expr : Type :=
  | IntegerLiteralExpr (ty : Ty) (Value : APInt)
  | CharacterLiteralExpr (ty : Ty) (Value : Z)
  | FloatLiteralExpr (ty : Ty)
  | StringLiteralExpr (ty : Ty) (Value : string)
  | MetatypeExpr (ty : Ty)
  | OtherExpr (ty : Ty).

Definition Expr_getType (E : Expr) : Ty :=
  match E with
  | IntegerLiteralExpr ty _ | CharacterLiteralExpr ty _ | FloatLiteralExpr ty
  | StringLiteralExpr ty _ | MetatypeExpr ty | OtherExpr ty => ty
  end.

(** [SILLocation]: a union of AST node pointers, or nothing for an
    instruction without a source analog ([SILLocation()]). *)
Inductive SILLocation : Type :=
  | LocExpr (E : Expr)
  | LocStmt (s : N)
  | LocDecl (d : N)
  | LocNone.

(** A value reference: the defining instruction and the result index. *)
Record Value : Type := mkValue { Def : InstId; ResultNumber : nat }.

(** A substitution record of the generics model, opaque here. *)
Record Substitution : Type := mkSubstitution { Archetype : N; Replacement : Ty }.

(** A successor edge slot of a terminator. *)
Record Successor : Type := mkSuccessor {
  ContainingInst : option InstId;
  SuccessorBlock : option BlockId
}.

(** ** Instructions *)

(** The members a class adds to the [Instruction] base.  A trailing array is
    the raw memory behind the header: a slot is [None] until written. *)
Inductive Members : Type :=
  | FunctionInstMembers (Callee : Value) (NumArgs : nat)
                        (ArgsStorage : list (option Value))
  | TupleInstMembers (NumArgs : nat) (ElementsStorage : list (option Value))
  | SpecializeInstMembers (Operand : Value) (NumSubstitutions : nat)
                          (SubstitutionsStorage : list (option Substitution))
  | ReturnInstMembers (ReturnValue : Value)
  | BranchInstMembers (DestBB : Successor)
  | CondBranchInstMembers (Condition : Value) (DestBBs0 DestBBs1 : Successor)
  | NoMembers.

Record Instruction : Type := mkInstruction {
  Kind : ValueKind;
  Types : list Ty;
  Loc : SILLocation;
  ParentBB : option BlockId;
  Fields : Members
}.

Definition set_ParentBB (p : option BlockId) (I : Instruction) : Instruction :=
  mkInstruction (Kind I) (Types I) (Loc I) p (Fields I).

Definition set_Fields (m : Members) (I : Instruction) : Instruction :=
  mkInstruction (Kind I) (Types I) (Loc I) (ParentBB I) m.

(** ** The store *)

(** What the instrumented operations record, newest first. *)
Inductive Event : Type :=
  | EvCompareBlocks (a b : BlockId)             (* one [==] on block pointers *)
  | EvSetParent (I : InstId) (p : option BlockId) (* one write of [ParentBB] *)
  | EvSuccInit (I : InstId) (slot : nat)        (* [DestBBs[slot].init(I)] *)
  | EvSuccAssign (I : InstId) (slot : nat) (BB : BlockId). (* [DestBBs[slot] = BB] *)

Record State : Type := mkState {
  Insts : gmap InstId Instruction;      (* live instruction objects *)
  Blocks : gmap BlockId (list InstId);  (* each block's instruction list *)
  ArenaNext : N;                        (* the function's bump pointer *)
  Buffers : gmap InstId N;              (* size of every buffer handed out *)
  Log : list Event
}.

Definition set_Insts (f : gmap InstId Instruction → gmap InstId Instruction)
    (σ : State) : State :=
  mkState (f (Insts σ)) (Blocks σ) (ArenaNext σ) (Buffers σ) (Log σ).

Definition set_Blocks (f : gmap BlockId (list InstId) → gmap BlockId (list InstId))
    (σ : State) : State :=
  mkState (Insts σ) (f (Blocks σ)) (ArenaNext σ) (Buffers σ) (Log σ).

Definition add_Log (e : Event) (σ : State) : State :=
  mkState (Insts σ) (Blocks σ) (ArenaNext σ) (Buffers σ) (e :: Log σ).

Definition initial : State := mkState ∅ ∅ 0 ∅ [].

(** ** The monad of member functions *)

Definition M (A : Type) : Type := State → Result (A * State).

Definition ret {A} (a : A) : M A := λ σ, Ok (a, σ).
Definition bind {A B} (m : M A) (k : A → M B) : M B :=
  λ σ, match m σ with
       | Ok (a, σ') => k a σ'
       | Fail f => Fail f
       end.
Definition fail {A} (f : Failure) : M A := λ _, Fail f.
Definition get : M State := λ σ, Ok (σ, σ).
Definition modify (f : State → State) : M unit := λ σ, Ok (tt, f σ).

Notation "x <- m ;; k" := (bind m (λ x, k))
  (at level 100, m at next level, right associativity).
Notation "m ;; k" := (bind m (λ _, k))
  (at level 100, right associativity).

(** [assert(c && msg)] *)
Definition assert (c : bool) (msg : string) : M unit :=
  if c then ret tt else fail (AssertionFailure msg).

(** Dereferencing an instruction pointer. *)
Definition deref (I : InstId) : M Instruction :=
  σ <- get ;;
  match Insts σ !! I with
  | Some r => ret r
  | None => fail Undefined
  end.

(** [I->ParentBB = p] *)
Definition write_ParentBB (I : InstId) (p : option BlockId) : M unit :=
  _ <- deref I ;;
  modify (λ σ, add_Log (EvSetParent I p) (set_Insts (alter (set_ParentBB p) I) σ)).

(** The instruction list embedded in a block. *)
Definition getInsts (B : BlockId) : M (list InstId) :=
  σ <- get ;;
  match Blocks σ !! B with
  | Some l => ret l
  | None => fail Undefined
  end.

(** ** [ilist_traits<Instruction>] *)

(** The trait object is the list embedded in a block, so it is named by the
    block; [getContainingBlock] recovers the block from it. *)
Definition getContainingBlock (this : BlockId) : BlockId := this.

Definition addNodeToList (this : BlockId) (I : InstId) : M unit :=
  r <- deref I ;;
  assert (bool_decide (ParentBB r = None)) "Already in a list!" ;;
  write_ParentBB I (Some (getContainingBlock this)).

Definition removeNodeFromList (this : BlockId) (I : InstId) : M unit :=
  r <- deref I ;;
  assert (bool_decide (ParentBB r ≠ None)) "Not in a list!" ;;
  write_ParentBB I None.

(** The loop [for (; first != last; ++first) first->ParentBB = ThisParent;].
    An iterator is a position in the list together with the nodes from that
    position on; stepping past the end of the list is undefined. *)
Fixpoint transferNodes_loop (ThisParent : BlockId) (nodes : list InstId)
    (first last : nat) : M unit :=
  if bool_decide (first = last) then ret tt
  else match nodes with
       | [] => fail Undefined
       | Node :: rest =>
           write_ParentBB Node (Some ThisParent) ;;
           transferNodes_loop ThisParent rest (S first) last
       end.

Definition transferNodesFromList (this L2 : BlockId) (first last : nat) : M unit :=
  let ThisParent := getContainingBlock this in
  modify (add_Log (EvCompareBlocks ThisParent (getContainingBlock L2))) ;;
  if bool_decide (ThisParent = getContainingBlock L2) then ret tt
  else
    nodes <- getInsts this ;;
    transferNodes_loop ThisParent (drop first nodes) first last.

(** ** [iplist<Instruction>]: the list operations behind the callbacks *)

(** Modelled from the spec: [iplist<Instruction>::insert] of LLVM's ilist.h,
    which is not under src/.  "On insertion, the block sets the instruction's
    parent back-reference to itself", through [addNodeToList], and links the
    node in front of position [pos]. *)
Definition iplist_insert (this : BlockId) (pos : nat) (New : InstId) : M unit :=
  addNodeToList this New ;;
  l <- getInsts this ;;
  if bool_decide (pos ≤ length l)%nat then
    modify (set_Blocks (<[this := take pos l ++ New :: drop pos l]>))
  else fail Undefined.

(** Modelled from the spec: [iplist<Instruction>::remove] of LLVM's ilist.h.
    "On removal, it clears it", through [removeNodeFromList], and unlinks the
    node, which is not destroyed. *)
Definition iplist_remove (this : BlockId) (Node : InstId) : M unit :=
  removeNodeFromList this Node ;;
  l <- getInsts this ;;
  if bool_decide (Node ∈ l) then
    modify (set_Blocks (<[this := filter (λ x, x ≠ Node) l]>))
  else fail Undefined.

(** Modelled from the spec: [deleteNode], the destruction of an unlinked
    instruction; its storage is no longer an object. *)
Definition deleteNode (Node : InstId) : M unit :=
  _ <- deref Node ;;
  modify (set_Insts (delete Node)).

(** Modelled from the spec: [iplist<Instruction>::erase] of LLVM's ilist.h,
    "unlinks and destroys/deallocates in one step". *)
Definition iplist_erase (this : BlockId) (Node : InstId) : M unit :=
  iplist_remove this Node ;;
  deleteNode Node.

(** Modelled from the spec: [iplist<Instruction>::splice] of LLVM's ilist.h.
    The run at positions [first, last) of [L2] is unlinked and linked into
    [this] in front of position [pos], counted in the list of [this] once
    the run is out of it; then the callback visits the run where it now is.
    The relinking is the same whether or not the two lists are one. *)
Definition iplist_splice (this : BlockId) (pos : nat) (L2 : BlockId)
    (first last : nat) : M unit :=
  src <- getInsts L2 ;;
  if bool_decide (first ≤ last ∧ last ≤ length src)%nat then
    let run := take (last - first) (drop first src) in
    modify (set_Blocks (<[L2 := take first src ++ drop last src]>)) ;;
    dst <- getInsts this ;;
    if bool_decide (pos ≤ length dst)%nat then
      modify (set_Blocks (<[this := take pos dst ++ run ++ drop pos dst]>)) ;;
      transferNodesFromList this L2 pos (pos + length run)
    else fail Undefined
  else fail Undefined.

(** ** [Instruction] *)

(** Modelled from the spec: [Instruction::getParent] of Instruction.h, "the
    currently owning block, or a failure if unlinked", by a debug-mode check. *)
Definition getParent (this : InstId) : M BlockId :=
  r <- deref this ;;
  match ParentBB r with
  | Some B => ret B
  | None => fail (AssertionFailure "instruction has no parent")
  end.

Definition removeFromParent (this : InstId) : M unit :=
  B <- getParent this ;;
  iplist_remove B this.

Definition eraseFromParent (this : InstId) : M unit :=
  B <- getParent this ;;
  iplist_erase B this.

(** ** The function's arena and the construction of objects *)

(** Modelled from the spec: [Function::allocate] of Function.h, the arena
    "from which variable-length instruction records are carved", append-only:
    a buffer of [Size] bytes at the next address aligned to [Align]. *)
Definition allocate (Size Align : N) : M InstId :=
  if bool_decide (Align = 0) then fail Undefined
  else
    σ <- get ;;
    let Buffer := (ArenaNext σ + Align - 1) / Align * Align in
    modify (λ σ, mkState (Insts σ) (Blocks σ) (Buffer + Size)
                         (<[Buffer := Size]> (Buffers σ)) (Log σ)) ;;
    ret Buffer.

(** Modelled from the spec: the constructor of the [Instruction] base class
    of Instruction.h: the kind, the location and the result types are stored
    in the header, and the new instruction is in no block. *)
Definition Instruction_ctor (this : InstId) (kind : ValueKind)
    (loc : SILLocation) (tys : list Ty) : M unit :=
  σ <- get ;;
  match Buffers σ !! this with
  | Some _ => modify (set_Insts (<[this := mkInstruction kind tys loc None NoMembers]>))
  | None => fail Undefined
  end.

(** The member initialisers of a derived class. *)
Definition write_Fields (this : InstId) (m : Members) : M unit :=
  _ <- deref this ;;
  modify (set_Insts (alter (set_Fields m) this)).

(** [new (F) T(...)]: a buffer from the arena, and the object built in it. *)
Definition operator_new (Size Align : N) (ctor : InstId → M unit) : M InstId :=
  Buffer <- allocate Size Align ;;
  ctor Buffer ;;
  ret Buffer.

(** Modelled from the spec: [Value::getType], the type of "the result
    produced by some instruction" at the value's result index. *)
Definition Value_getType (V : Value) : M Ty :=
  r <- deref (Def V) ;;
  match Types r !! ResultNumber V with
  | Some t => ret t
  | None => fail Undefined
  end.

(** Modelled from the spec: the checked downcast [castTo<FunctionType>] of
    the type system, fatal on a type of another shape. *)
Definition castTo_FunctionType (t : Ty) : M (Ty * Ty) :=
  match t with
  | FunctionType i o => ret (i, o)
  | _ => fail (AssertionFailure "cast<Ty>() argument of incompatible type!")
  end.

(** ** Variable-length records *)

(** [memcpy] on an array of elements, one element at a time from index [k];
    reading past the source or writing past the buffer is undefined. *)
Fixpoint memcpy_loop {E} (dst : list (option E)) (src : list E) (k n : nat)
    : Result (list (option E)) :=
  match n with
  | O => Ok dst
  | S n' =>
      match src !! k with
      | None => Fail Undefined
      | Some x =>
          if bool_decide (k < length dst)%nat
          then memcpy_loop (<[k := Some x]> dst) src (S k) n'
          else Fail Undefined
      end
  end.

(** [memcpy(dst, src, bytes)] for elements of [eltsize] bytes each. *)
Definition memcpy {E} (dst : list (option E)) (src : list E)
    (bytes eltsize : N) : M (list (option E)) :=
  match memcpy_loop dst src 0 (N.to_nat (bytes / eltsize)) with
  | Ok dst' => ret dst'
  | Fail f => fail f
  end.

(** The sizes and alignments of the target, which the source takes from
    [sizeof] and [llvm::AlignOf]. *)
Record Layout : Type := mkLayout {
  sizeofInst : ValueKind → N;
  alignofInst : ValueKind → N;
  sizeofValue : N;
  sizeofSubstitution : N
}.

Definition Layout_ok (ly : Layout) : Prop :=
  (∀ k, 0 < sizeofInst ly k) ∧ (∀ k, 0 < alignofInst ly k) ∧
  0 < sizeofValue ly ∧ 0 < sizeofSubstitution ly.

(** The number of elements that fit behind a header of [header] bytes in the
    buffer at [this]. *)
Definition trailing_capacity (this : InstId) (header eltsize : N) : M nat :=
  σ <- get ;;
  match Buffers σ !! this with
  | Some size =>
      if bool_decide (header ≤ size) then ret (N.to_nat ((size - header) / eltsize))
      else fail Undefined
  | None => fail Undefined
  end.

Section VariableLength.
Context (ly : Layout).

Definition FunctionInst_ctor (this : InstId) (kind : ValueKind)
    (loc : SILLocation) (ty : Ty) (Callee : Value) (Args : list Value) : M unit :=
  Instruction_ctor this kind loc [ty] ;;
  cap <- trailing_capacity this (sizeofInst ly kind) (sizeofValue ly) ;;
  write_Fields this (FunctionInstMembers Callee (length Args) (replicate cap None)) ;;
  storage <- memcpy (replicate cap None) Args
               (N.of_nat (length Args) * sizeofValue ly) (sizeofValue ly) ;;
  write_Fields this (FunctionInstMembers Callee (length Args) storage).

(** [FunctionInst::create<DERIVED>], with the constructor of [DERIVED]. *)
Definition FunctionInst_create (kind : ValueKind) (ctor : InstId → M unit)
    (Args : list Value) : M InstId :=
  Buffer <- allocate (sizeofInst ly kind + N.of_nat (length Args) * sizeofValue ly)
                     (alignofInst ly kind) ;;
  ctor Buffer ;;
  ret Buffer.

Definition ApplyInst_ctor (this : InstId) (loc : SILLocation) (Callee : Value)
    (Args : list Value) : M unit :=
  t <- Value_getType Callee ;;
  ft <- castTo_FunctionType t ;;
  FunctionInst_ctor this ApplyInst loc (snd ft) Callee Args.

Definition ApplyInst_create (loc : SILLocation) (Callee : Value)
    (Args : list Value) : M InstId :=
  FunctionInst_create ApplyInst (λ this, ApplyInst_ctor this loc Callee Args) Args.

Definition ClosureInst_ctor (this : InstId) (loc : SILLocation) (Callee : Value)
    (Args : list Value) : M unit :=
  t <- Value_getType Callee ;;
  FunctionInst_ctor this ClosureInst loc t Callee Args.

Definition ClosureInst_create (loc : SILLocation) (Callee : Value)
    (Args : list Value) : M InstId :=
  FunctionInst_create ClosureInst (λ this, ClosureInst_ctor this loc Callee Args) Args.

Definition SpecializeInst_ctor (this : InstId) (loc : SILLocation)
    (Operand : Value) (Substitutions : list Substitution) (DestTy : Ty) : M unit :=
  Instruction_ctor this SpecializeInst loc [DestTy] ;;
  cap <- trailing_capacity this (sizeofInst ly SpecializeInst) (sizeofSubstitution ly) ;;
  write_Fields this
    (SpecializeInstMembers Operand (length Substitutions) (replicate cap None)) ;;
  storage <- memcpy (replicate cap None) Substitutions
               (N.of_nat (length Substitutions) * sizeofSubstitution ly)
               (sizeofSubstitution ly) ;;
  write_Fields this (SpecializeInstMembers Operand (length Substitutions) storage).

Definition SpecializeInst_create (loc : SILLocation) (Operand : Value)
    (Substitutions : list Substitution) (DestTy : Ty) : M InstId :=
  Buffer <- allocate (sizeofInst ly SpecializeInst
                      + N.of_nat (length Substitutions) * sizeofSubstitution ly)
                     (alignofInst ly SpecializeInst) ;;
  SpecializeInst_ctor Buffer loc Operand Substitutions DestTy ;;
  ret Buffer.

Definition TupleInst_ctor (this : InstId) (loc : SILLocation) (ty : Ty)
    (Elems : list Value) : M unit :=
  Instruction_ctor this TupleInst loc [ty] ;;
  cap <- trailing_capacity this (sizeofInst ly TupleInst) (sizeofValue ly) ;;
  write_Fields this (TupleInstMembers (length Elems) (replicate cap None)) ;;
  storage <- memcpy (replicate cap None) Elems
               (N.of_nat (length Elems) * sizeofValue ly) (sizeofValue ly) ;;
  write_Fields this (TupleInstMembers (length Elems) storage).

Definition TupleInst_createImpl (loc : SILLocation) (ty : Ty)
    (Elements : list Value) : M InstId :=
  Buffer <- allocate (sizeofInst ly TupleInst
                      + N.of_nat (length Elements) * sizeofValue ly)
                     (alignofInst ly TupleInst) ;;
  TupleInst_ctor Buffer loc ty Elements ;;
  ret Buffer.
End VariableLength.

(** Modelled from the spec: the accessors of Instruction.h that give "read
    access to operand count and indexed operand lookup"; the count is the one
    stored in the header, and an index is checked against it. *)
Definition getNumElements (this : InstId) : M nat :=
  r <- deref this ;;
  match Fields r with
  | FunctionInstMembers _ n _ | TupleInstMembers n _ | SpecializeInstMembers _ n _ => ret n
  | _ => fail Undefined
  end.

Definition read_slot {E} (n : nat) (storage : list (option E)) (i : nat) : M E :=
  assert (bool_decide (i < n)%nat) "Invalid index!" ;;
  match storage !! i with
  | Some (Some x) => ret x
  | _ => fail Undefined
  end.

Definition getOperand (this : InstId) (i : nat) : M Value :=
  r <- deref this ;;
  match Fields r with
  | FunctionInstMembers _ n storage | TupleInstMembers n storage => read_slot n storage i
  | _ => fail Undefined
  end.

Definition getSubstitution (this : InstId) (i : nat) : M Substitution :=
  r <- deref this ;;
  match Fields r with
  | SpecializeInstMembers _ n storage => read_slot n storage i
  | _ => fail Undefined
  end.

(** ** [IntegerLiteralInst] *)

Definition IntegerLiteralInst_ctor_int (this : InstId) (ty : Ty) (v : APInt) : M unit :=
  let E := IntegerLiteralExpr ty v in
  Instruction_ctor this IntegerLiteralInst (LocExpr E) [Expr_getType E].

Definition IntegerLiteralInst_ctor_char (this : InstId) (ty : Ty) (c : Z) : M unit :=
  let E := CharacterLiteralExpr ty c in
  Instruction_ctor this IntegerLiteralInst (LocExpr E) [Expr_getType E].

(** Modelled from the spec: [getLocExpr<Expr>] of Instruction.h, "the
    originating construct" of a literal-backed instruction. *)
Definition getLocExpr (this : InstId) : M Expr :=
  r <- deref this ;;
  match Loc r with
  | LocExpr E => ret E
  | _ => fail Undefined
  end.

Definition IntegerLiteralInst_getExpr (this : InstId) : M Expr := getLocExpr this.

Definition dyn_cast_IntegerLiteralExpr (E : Expr) : option APInt :=
  match E with IntegerLiteralExpr _ v => Some v | _ => None end.

Definition dyn_cast_CharacterLiteralExpr (E : Expr) : option Z :=
  match E with CharacterLiteralExpr _ c => Some c | _ => None end.

Definition IntegerLiteralInst_getValue (this : InstId) : M APInt :=
  expr <- IntegerLiteralInst_getExpr this ;;
  match dyn_cast_IntegerLiteralExpr expr with
  | Some intExpr => ret intExpr
  | None =>
      match dyn_cast_CharacterLiteralExpr expr with
      | Some charExpr => ret (APInt_of 32 charExpr)
      | None => fail (UnreachableExecuted
                  "int_literal instruction associated with unexpected ast node!")
      end
  end.

(** ** Terminators *)

(** Modelled from the spec: the classification queries of Instruction.h,
    "is this instruction of variant X / is it a terminator", on the kind
    alone; the terminators are unreachable, return, branch and conditional
    branch. *)
Definition classof (k : ValueKind) (r : Instruction) : bool :=
  bool_decide (Kind r = k).

Definition TermInst_classof (r : Instruction) : bool :=
  match Kind r with
  | UnreachableInst | ReturnInst | BranchInst | CondBranchInst => true
  | _ => false
  end.

(** Modelled from the spec: the successor edge slot of Successor.h.  A slot
    is built empty; [init] registers the owning instruction; the assignment
    of a target needs the owner to be known. *)
Definition Successor_default : Successor := mkSuccessor None None.

Definition Successor_init (s : Successor) (CI : InstId) : Successor :=
  mkSuccessor (Some CI) (SuccessorBlock s).

Definition Successor_assign (s : Successor) (BB : BlockId) : Result Successor :=
  match ContainingInst s with
  | Some _ => Ok (mkSuccessor (ContainingInst s) (Some BB))
  | None => Fail (AssertionFailure "successor slot has no owning instruction")
  end.

(** [Successor(CI, BB)] *)
Definition Successor_ctor (CI : InstId) (BB : BlockId) : Result Successor :=
  Successor_assign (Successor_init Successor_default CI) BB.

(** [DestBBs[slot].init(CI)] on the object at [this] *)
Definition DestBBs_init (this : InstId) (slot : nat) (CI : InstId) : M unit :=
  r <- deref this ;;
  match Fields r, slot with
  | CondBranchInstMembers c s0 s1, O =>
      write_Fields this (CondBranchInstMembers c (Successor_init s0 CI) s1) ;;
      modify (add_Log (EvSuccInit CI 0))
  | CondBranchInstMembers c s0 s1, S O =>
      write_Fields this (CondBranchInstMembers c s0 (Successor_init s1 CI)) ;;
      modify (add_Log (EvSuccInit CI 1))
  | _, _ => fail Undefined
  end.

(** [DestBBs[slot] = BB] on the object at [this] *)
Definition DestBBs_assign (this : InstId) (slot : nat) (BB : BlockId) : M unit :=
  r <- deref this ;;
  match Fields r, slot with
  | CondBranchInstMembers c s0 s1, O =>
      match Successor_assign s0 BB with
      | Ok s0' =>
          write_Fields this (CondBranchInstMembers c s0' s1) ;;
          modify (add_Log (EvSuccAssign this 0 BB))
      | Fail f => fail f
      end
  | CondBranchInstMembers c s0 s1, S O =>
      match Successor_assign s1 BB with
      | Ok s1' =>
          write_Fields this (CondBranchInstMembers c s0 s1') ;;
          modify (add_Log (EvSuccAssign this 1 BB))
      | Fail f => fail f
      end
  | _, _ => fail Undefined
  end.

(** Modelled from the spec: the constructor of [TermInst] of Instruction.h,
    which passes its arguments on to the [Instruction] base. *)
Definition TermInst_ctor (this : InstId) (kind : ValueKind) (loc : SILLocation)
    (tys : list Ty) : M unit :=
  Instruction_ctor this kind loc tys.

Definition UnreachableInst_ctor (this : InstId) : M unit :=
  TermInst_ctor this UnreachableInst LocNone [TheEmptyTupleType].

Definition ReturnInst_ctor (this : InstId) (loc : SILLocation)
    (ReturnValue : Value) : M unit :=
  TermInst_ctor this ReturnInst loc [] ;;
  write_Fields this (ReturnInstMembers ReturnValue).

Definition BranchInst_ctor (this : InstId) (DestBB : BlockId) : M unit :=
  TermInst_ctor this BranchInst LocNone [TheEmptyTupleType] ;;
  match Successor_ctor this DestBB with
  | Ok s => write_Fields this (BranchInstMembers s)
  | Fail f => fail f
  end.

Definition CondBranchInst_ctor (this : InstId) (loc : SILLocation)
    (Condition : Value) (TrueBB FalseBB : BlockId) : M unit :=
  TermInst_ctor this CondBranchInst loc [] ;;
  write_Fields this (CondBranchInstMembers Condition Successor_default Successor_default) ;;
  DestBBs_init this 0 this ;;
  DestBBs_init this 1 this ;;
  DestBBs_assign this 0 TrueBB ;;
  DestBBs_assign this 1 FalseBB.

(** Modelled from the spec: the successor accessors of the four terminator
    classes in Instruction.h: none for unreachable and return, the one slot
    of a branch, the two slots of a conditional branch in their order. *)
Definition UnreachableInst_getSuccessors (r : Instruction) : M (list Successor) :=
  ret [].

Definition ReturnInst_getSuccessors (r : Instruction) : M (list Successor) :=
  ret [].

Definition CondBranchInst_getSuccessors (r : Instruction) : M (list Successor) :=
  match Fields r with
  | CondBranchInstMembers _ s0 s1 => ret [s0; s1]
  | _ => fail Undefined
  end.

Definition BranchInst_getSuccessors (r : Instruction) : M (list Successor) :=
  match Fields r with
  | BranchInstMembers s => ret [s]
  | _ => fail Undefined
  end.

(** [cast<X>(this)], fatal on an object of another kind. *)
Definition cast (k : ValueKind) (r : Instruction) : M Instruction :=
  assert (classof k r) "cast<Ty>() argument of incompatible type!" ;;
  ret r.

(** [isa<TermInst>(this)] where [this] is a [TermInst*]: asking for the
    static class of the pointer is an upcast, which [isa] answers without
    looking at the object. *)
Definition isa_TermInst (r : Instruction) : bool := true.

(** The assertion on entry therefore holds of every object; an object that
    is no terminator falls through the three [dyn_cast]s and stops in
    [cast<BranchInst>]. *)
Definition getSuccessors (this : InstId) : M (list Successor) :=
  r <- deref this ;;
  assert (isa_TermInst r) "Only TermInst's are allowed" ;;
  if classof UnreachableInst r then UnreachableInst_getSuccessors r
  else if classof ReturnInst r then ReturnInst_getSuccessors r
  else if classof CondBranchInst r then CondBranchInst_getSuccessors r
  else
    b <- cast BranchInst r ;;
    BranchInst_getSuccessors b.

(** The targets of a successor list. *)
Definition targets (l : list Successor) : list (option BlockId) :=
  SuccessorBlock <$> l.

(** ** The operations a client of this layer performs *)

(** Modelled from the spec: the creation of a basic block, whose class is
    not under src/; a new block has an empty instruction list. *)
Definition BasicBlock_ctor (B : BlockId) : M unit :=
  σ <- get ;;
  match Blocks σ !! B with
  | None => modify (set_Blocks (<[B := []]>))
  | Some _ => fail Undefined
  end.

Inductive Op : Type :=
  | NewBlock (B : BlockId)
  | Insert (B : BlockId) (pos : nat) (I : InstId)
  | RemoveFromParent (I : InstId)
  | EraseFromParent (I : InstId)
  | Splice (this : BlockId) (pos : nat) (L2 : BlockId) (first last : nat)
  | NewApply (loc : SILLocation) (Callee : Value) (Args : list Value)
  | NewClosure (loc : SILLocation) (Callee : Value) (Args : list Value)
  | NewSpecialize (loc : SILLocation) (Operand : Value)
                  (Substitutions : list Substitution) (DestTy : Ty)
  | NewTuple (loc : SILLocation) (ty : Ty) (Elements : list Value)
  | NewIntegerLiteral (ty : Ty) (v : APInt)
  | NewCharacterLiteral (ty : Ty) (c : Z)
  | NewUnreachable
  | NewReturn (loc : SILLocation) (ReturnValue : Value)
  | NewBranch (DestBB : BlockId)
  | NewCondBranch (loc : SILLocation) (Condition : Value) (TrueBB FalseBB : BlockId).

Definition new (ly : Layout) (k : ValueKind) (ctor : InstId → M unit) : M unit :=
  operator_new (sizeofInst ly k) (alignofInst ly k) ctor ;; ret tt.

Definition run (ly : Layout) (op : Op) : M unit :=
  match op with
  | NewBlock B => BasicBlock_ctor B
  | Insert B pos Node => iplist_insert B pos Node
  | RemoveFromParent Node => removeFromParent Node
  | EraseFromParent Node => eraseFromParent Node
  | Splice this pos L2 first last => iplist_splice this pos L2 first last
  | NewApply loc Callee Args => ApplyInst_create ly loc Callee Args ;; ret tt
  | NewClosure loc Callee Args => ClosureInst_create ly loc Callee Args ;; ret tt
  | NewSpecialize loc Operand Substitutions DestTy =>
      SpecializeInst_create ly loc Operand Substitutions DestTy ;; ret tt
  | NewTuple loc ty Elements => TupleInst_createImpl ly loc ty Elements ;; ret tt
  | NewIntegerLiteral ty v =>
      new ly IntegerLiteralInst (λ this, IntegerLiteralInst_ctor_int this ty v)
  | NewCharacterLiteral ty c =>
      new ly IntegerLiteralInst (λ this, IntegerLiteralInst_ctor_char this ty c)
  | NewUnreachable => new ly UnreachableInst UnreachableInst_ctor
  | NewReturn loc ReturnValue =>
      new ly ReturnInst (λ this, ReturnInst_ctor this loc ReturnValue)
  | NewBranch DestBB => new ly BranchInst (λ this, BranchInst_ctor this DestBB)
  | NewCondBranch loc Condition TrueBB FalseBB =>
      new ly CondBranchInst
        (λ this, CondBranchInst_ctor this loc Condition TrueBB FalseBB)
  end.

(** The states a client can bring about from the empty function. *)
Inductive reachable (ly : Layout) : State → Prop :=
  | reachable_initial : reachable ly initial
  | reachable_step σ op σ' :
      reachable ly σ → run ly op σ = Ok (tt, σ') → reachable ly σ'.

(** Running a sequence of operations, stopping at the first failure. *)
Fixpoint run_all (ly : Layout) (ops : list Op) : M unit :=
  match ops with
  | [] => ret tt
  | op :: ops' => run ly op ;; run_all ly ops'
  end.

(** ** Consistency of the store *)

(** An instruction is linked into block [B]. *)
Definition linked (σ : State) (I : InstId) (B : BlockId) : Prop :=
  ∃ l, Blocks σ !! B = Some l ∧ I ∈ l.

Record wf (σ : State) : Prop := mkWf {
  wf_NoDup : ∀ B l, Blocks σ !! B = Some l → NoDup l;
  wf_parent : ∀ I r B, Insts σ !! I = Some r → ParentBB r = Some B ↔ linked σ I B;
  wf_live : ∀ B l I, Blocks σ !! B = Some l → I ∈ l → is_Some (Insts σ !! I);
  wf_arena : ∀ I, is_Some (Insts σ !! I) → I < ArenaNext σ
}.

(** The parent pointer of an instruction, [None] for null. *)
Definition parent_of (σ : State) (I : InstId) : option BlockId :=
  r ← Insts σ !! I; ParentBB r.


(** ** Stores and relations that the proofs name *)

(** The store after [I->ParentBB = p], and after the update pass over a run. *)
Definition with_parent (I : InstId) (p : option BlockId) (σ : State) : State :=
  add_Log (EvSetParent I p) (set_Insts (alter (set_ParentBB p) I) σ).

Definition with_parents (P : BlockId) (run : list InstId) (σ : State) : State :=
  foldl (λ σ I, with_parent I (Some P) σ) σ run.

(** The store once the run is relinked, before the callback runs. *)
Definition relinked (this : BlockId) (pos : nat) (L2 : BlockId) (first last : nat)
    (src dst : list InstId) (σ : State) : State :=
  set_Blocks (<[this := take pos dst ++ take (last - first) (drop first src)
                          ++ drop pos dst]>)
    (set_Blocks (<[L2 := take first src ++ drop last src]>) σ).

(** The store after a node is linked into, or unlinked from, a list. *)
Definition inserted (this : BlockId) (pos : nat) (I : InstId) (l : list InstId)
    (σ : State) : State :=
  set_Blocks (<[this := take pos l ++ I :: drop pos l]>) (with_parent I (Some this) σ).

Definition removed (this : BlockId) (I : InstId) (l : list InstId)
    (σ : State) : State :=
  set_Blocks (<[this := filter (λ x, x ≠ I) l]>) (with_parent I None σ).

(** Between [σ] and [σ'] only the members of the object at [this] changed. *)
Record stays (this : InstId) (σ σ' : State) : Prop := mkStays {
  stays_Blocks : Blocks σ' = Blocks σ;
  stays_ArenaNext : ArenaNext σ' = ArenaNext σ;
  stays_Buffers : Buffers σ' = Buffers σ;
  stays_others : ∀ J, J ≠ this → Insts σ' !! J = Insts σ !! J;
  stays_parent : ∀ r, Insts σ !! this = Some r →
                 ∃ r', Insts σ' !! this = Some r' ∧ ParentBB r' = ParentBB r
}.

(** Between [σ] and [σ'] an object was built in the buffer at [this], and it
    is in no block. *)
Record built (this : InstId) (σ σ' : State) : Prop := mkBuilt {
  built_Blocks : Blocks σ' = Blocks σ;
  built_ArenaNext : ArenaNext σ' = ArenaNext σ;
  built_Buffers : Buffers σ' = Buffers σ;
  built_others : ∀ J, J ≠ this → Insts σ' !! J = Insts σ !! J;
  built_parent : ∃ r', Insts σ' !! this = Some r' ∧ ParentBB r' = None
}.

(** The store once a buffer of [Size] bytes was handed out at [Buffer]. *)
Definition allocated (Buffer Size : N) (σ : State) : State :=
  mkState (Insts σ) (Blocks σ) (Buffer + Size) (<[Buffer := Size]> (Buffers σ)) (Log σ).

(** The store with the object [r] at [this] and the events [es] logged. *)
Definition obj (this : InstId) (r : Instruction) (es : list Event) (σ : State) : State :=
  mkState (<[this := r]> (Insts σ)) (Blocks σ) (ArenaNext σ) (Buffers σ) (es ++ Log σ).

(** The conditional branch as its constructor leaves it. *)
Definition CondBranchInst_built (this : InstId) (loc : SILLocation)
    (Condition : Value) (TrueBB FalseBB : BlockId) : Instruction :=
  mkInstruction CondBranchInst [] loc None
    (CondBranchInstMembers Condition
       (mkSuccessor (Some this) (Some TrueBB))
       (mkSuccessor (Some this) (Some FalseBB))).

(** The closed mapping from a kind to the accessor of its class, as the
    specification words the dispatch: one entry per terminator, none for any
    other kind, on which the checked cast to the last class fails. *)
Definition successors_by_kind (k : ValueKind)
    : option (Instruction → M (list Successor)) :=
  match k with
  | UnreachableInst => Some UnreachableInst_getSuccessors
  | ReturnInst => Some ReturnInst_getSuccessors
  | CondBranchInst => Some CondBranchInst_getSuccessors
  | BranchInst => Some BranchInst_getSuccessors
  | _ => None
  end.

(** What a client reads back from a record built from the elements [l]. *)
Definition reads_back_values (this : InstId) (σ : State) (l : list Value) : Prop :=
  getNumElements this σ = Ok (length l, σ) ∧
  ∀ i v, l !! i = Some v → getOperand this i σ = Ok (v, σ).

Definition reads_back_substitutions (this : InstId) (σ : State)
    (l : list Substitution) : Prop :=
  getNumElements this σ = Ok (length l, σ) ∧
  ∀ i s, l !! i = Some s → getSubstitution this i σ = Ok (s, σ).

(** ** A small function to run the operations on *)

(** A 64-bit layout: headers of 48 bytes aligned to 8, value references of
    16 bytes, substitution records of 24. *)
Definition lp64 : Layout := mkLayout (λ _, 48) (λ _, 8) 16 24.

(** Two blocks and six instructions, at the addresses 0, 48, ..., 240. *)
Definition demo_ops : list Op :=
  [NewBlock 1; NewBlock 2;
   NewUnreachable; NewBranch 2;
   NewIntegerLiteral (NominalType 0) (mkAPInt 64 7);
   NewCondBranch LocNone (mkValue 96 0) 2 1;
   NewCharacterLiteral (NominalType 1) 97;
   NewIntegerLiteral (NominalType 0) (mkAPInt 64 9);
   Insert 1 0 96; Insert 1 1 192; Insert 1 2 240; Insert 1 3 144;
   Insert 2 0 48].

Definition demo : State :=
  Eval vm_compute in
    match run_all lp64 demo_ops initial with
    | Ok (_, σ) => σ
    | Fail _ => initial
    end.

(** The literal at 96, first in block 1, and the unreachable at 0, which is
    in no block. *)
Definition demo_literal : Instruction :=
  mkInstruction IntegerLiteralInst [NominalType 0]
    (LocExpr (IntegerLiteralExpr (NominalType 0) (mkAPInt 64 7))) (Some 1) NoMembers.

Definition demo_unreachable : Instruction :=
  mkInstruction UnreachableInst [TheEmptyTupleType] LocNone None NoMembers.

(** A fresh buffer of 48 bytes at address 0. *)
Definition demo_buffer : State := allocated 0 48 initial.

(** ** Notions for the further properties *)

(** The answer of a call, without the store it leaves. *)
Definition answer {A} (x : Result (A * State)) : Result A :=
  match x with
  | Ok (a, _) => Ok a
  | Fail f => Fail f
  end.

(** [r'] is [r] but for the parent pointer. *)
Definition same_but_parent (r r' : Instruction) : Prop :=
  Kind r' = Kind r ∧ Types r' = Types r ∧ Loc r' = Loc r ∧ Fields r' = Fields r.

(** The two stores hold the same instructions but for their parent pointers. *)
Definition parents_only (σ σ' : State) : Prop :=
  ∀ I, option_Forall2 same_but_parent (Insts σ !! I) (Insts σ' !! I).

(** The operations that link, unlink or move instructions, and the ones that
    build an instruction. *)
Definition relinks (op : Op) : bool :=
  match op with
  | Insert _ _ _ | RemoveFromParent _ | Splice _ _ _ _ _ => true
  | _ => false
  end.

Definition creates (op : Op) : bool :=
  match op with
  | NewBlock _ | Insert _ _ _ | RemoveFromParent _ | EraseFromParent _
  | Splice _ _ _ _ _ => false
  | _ => true
  end.

(** What the constructors establish of the object at [this], kind by kind:
    the successor slots of a branch name the branch as their owner and have
    a target; the trailing array of a variable-length record holds as many
    written slots as the header counts; an integer literal has an integer
    or a character literal expression behind it, and its type. *)
Definition inst_ok (this : InstId) (r : Instruction) : Prop :=
  match Kind r with
  | BranchInst =>
      ∃ B, Fields r = BranchInstMembers (mkSuccessor (Some this) (Some B))
  | CondBranchInst =>
      ∃ c T F, Fields r = CondBranchInstMembers c (mkSuccessor (Some this) (Some T))
                            (mkSuccessor (Some this) (Some F))
  | ApplyInst | ClosureInst =>
      ∃ c l, Fields r = FunctionInstMembers c (length l) (Some <$> l)
  | TupleInst => ∃ l, Fields r = TupleInstMembers (length l) (Some <$> l)
  | SpecializeInst =>
      ∃ o l, Fields r = SpecializeInstMembers o (length l) (Some <$> l)
  | IntegerLiteralInst =>
      ∃ ty, Types r = [ty] ∧
            ((∃ v, Loc r = LocExpr (IntegerLiteralExpr ty v)) ∨
             (∃ c, Loc r = LocExpr (CharacterLiteralExpr ty c)))
  | _ => True
  end.


(** Every instruction of the store is as its constructor built it. *)
Definition all_ok (σ : State) : Prop :=
  ∀ I r, Insts σ !! I = Some r → inst_ok I r.

(** The small function after the first two instructions of block 1 were
    moved to the front of block 2, and after a tuple was built in it. *)
Definition demo_spliced : State :=
  Eval vm_compute in
    match run lp64 (Splice 2 0 1 0 2) demo with
    | Ok (_, σ) => σ
    | Fail _ => initial
    end.

Definition demo_tuple_op : Op :=
  NewTuple LocNone TheEmptyTupleType [mkValue 96 0; mkValue 192 0; mkValue 240 0].

Definition demo_tuple : State :=
  Eval vm_compute in
    match run lp64 demo_tuple_op demo with
    | Ok (_, σ) => σ
    | Fail _ => initial
    end.

(** A store whose only instruction, at address 0, has a function type. *)
Definition demo_function : State :=
  obj 0 (mkInstruction ConstantRefInst
           [FunctionType (NominalType 0) (NominalType 1)] LocNone None NoMembers)
      [] demo_buffer.


(** * Proofs *)

(** ** Reasoning about member functions *)

Lemma bind_Ok {A B} (m : M A) (k : A → M B) σ b σ2 :
  bind m k σ = Ok (b, σ2) ↔ ∃ a σ1, m σ = Ok (a, σ1) ∧ k a σ1 = Ok (b, σ2).
Proof.
  unfold bind. split.
  - destruct (m σ) as [[a σ1]|f]; [eauto | discriminate].
  - intros (a & σ1 & -> & ?). done.
Qed.

Lemma bind_eq {A B} (m : M A) (k : A → M B) σ a σ1 :
  m σ = Ok (a, σ1) → bind m k σ = k a σ1.
Proof. unfold bind. by intros ->. Qed.

Lemma bind_Fail {A B} (m : M A) (k : A → M B) σ f :
  m σ = Fail f → bind m k σ = Fail f.
Proof. unfold bind. by intros ->. Qed.

Lemma bind_ret {A B} (a : A) (k : A → M B) σ : bind (ret a) k σ = k a σ.
Proof. done. Qed.

Lemma bind_assert_true {B} msg (k : unit → M B) σ :
  bind (assert true msg) k σ = k tt σ.
Proof. done. Qed.

Lemma bind_assert_false {B} msg (k : unit → M B) σ :
  bind (assert false msg) k σ = Fail (AssertionFailure msg).
Proof. done. Qed.

Lemma deref_eq I σ r : Insts σ !! I = Some r → deref I σ = Ok (r, σ).
Proof. unfold deref, bind, get, ret. by intros ->. Qed.

Lemma deref_Ok I σ r σ' : deref I σ = Ok (r, σ') ↔ Insts σ !! I = Some r ∧ σ' = σ.
Proof.
  unfold deref, bind, get, ret, fail. destruct (Insts σ !! I) as [r0|].
  - split; [intros [= -> ->]; done | intros [[= ->] ->]; done].
  - split; [done | intros [[=] _]].
Qed.

Lemma getInsts_eq B σ l : Blocks σ !! B = Some l → getInsts B σ = Ok (l, σ).
Proof. unfold getInsts, bind, get, ret. by intros ->. Qed.

Lemma getInsts_Ok B σ l σ' :
  getInsts B σ = Ok (l, σ') ↔ Blocks σ !! B = Some l ∧ σ' = σ.
Proof.
  unfold getInsts, bind, get, ret, fail. destruct (Blocks σ !! B) as [l0|].
  - split; [intros [= -> ->]; done | intros [[= ->] ->]; done].
  - split; [done | intros [[=] _]].
Qed.

Lemma assert_Ok c msg σ u σ' : assert c msg σ = Ok (u, σ') ↔ c = true ∧ σ' = σ.
Proof.
  unfold assert, ret, fail. destruct c, u.
  - split; [intros [= ->]; done | intros [_ ->]; done].
  - split; [done | intros [[=] _]].
Qed.

Lemma modify_Ok f σ u σ' : modify f σ = Ok (u, σ') ↔ σ' = f σ.
Proof. unfold modify. destruct u. split; [intros [= ->]; done | intros ->; done]. Qed.

Lemma write_ParentBB_eq I p σ r :
  Insts σ !! I = Some r → write_ParentBB I p σ = Ok (tt, with_parent I p σ).
Proof. intros H. unfold write_ParentBB. by rewrite (bind_eq _ _ _ _ _ (deref_eq _ _ _ H)). Qed.

Lemma write_ParentBB_Ok I p σ u σ' :
  write_ParentBB I p σ = Ok (u, σ') ↔
  is_Some (Insts σ !! I) ∧ σ' = with_parent I p σ.
Proof.
  unfold write_ParentBB. rewrite bind_Ok. split.
  - intros (r & σ1 & [H ->]%deref_Ok & ->%modify_Ok). eauto.
  - intros [[r H] ->]. exists r, σ. rewrite deref_Ok, modify_Ok. done.
Qed.

Lemma with_parent_lookup I p σ J :
  Insts (with_parent I p σ) !! J =
  if decide (I = J) then set_ParentBB p <$> Insts σ !! J else Insts σ !! J.
Proof. unfold with_parent. simpl. rewrite lookup_alter. by case_decide; subst. Qed.

Lemma with_parent_Blocks I p σ : Blocks (with_parent I p σ) = Blocks σ.
Proof. done. Qed.

Lemma with_parent_ArenaNext I p σ : ArenaNext (with_parent I p σ) = ArenaNext σ.
Proof. done. Qed.

(** ** The callbacks of the list *)

Lemma addNodeToList_eq this I σ r :
  Insts σ !! I = Some r → ParentBB r = None →
  addNodeToList this I σ = Ok (tt, with_parent I (Some this) σ).
Proof.
  intros H Hp. unfold addNodeToList.
  rewrite (bind_eq _ _ _ _ _ (deref_eq _ _ _ H)).
  rewrite bool_decide_eq_true_2 by done. rewrite bind_assert_true.
  by rewrite (write_ParentBB_eq _ _ _ _ H).
Qed.

Lemma addNodeToList_Fail this I σ r :
  Insts σ !! I = Some r → ParentBB r ≠ None →
  addNodeToList this I σ = Fail (AssertionFailure "Already in a list!").
Proof.
  intros H Hp. unfold addNodeToList.
  rewrite (bind_eq _ _ _ _ _ (deref_eq _ _ _ H)).
  by rewrite bool_decide_eq_false_2.
Qed.

Lemma removeNodeFromList_eq this I σ r :
  Insts σ !! I = Some r → ParentBB r ≠ None →
  removeNodeFromList this I σ = Ok (tt, with_parent I None σ).
Proof.
  intros H Hp. unfold removeNodeFromList.
  rewrite (bind_eq _ _ _ _ _ (deref_eq _ _ _ H)).
  rewrite bool_decide_eq_true_2 by done. rewrite bind_assert_true.
  by rewrite (write_ParentBB_eq _ _ _ _ H).
Qed.

Lemma removeNodeFromList_Fail this I σ r :
  Insts σ !! I = Some r → ParentBB r = None →
  removeNodeFromList this I σ = Fail (AssertionFailure "Not in a list!").
Proof.
  intros H Hp. unfold removeNodeFromList.
  rewrite (bind_eq _ _ _ _ _ (deref_eq _ _ _ H)).
  by rewrite bool_decide_eq_false_2 by (intros ?; done).
Qed.

Lemma iplist_insert_Fail this pos I σ r :
  Insts σ !! I = Some r → ParentBB r ≠ None →
  iplist_insert this pos I σ = Fail (AssertionFailure "Already in a list!").
Proof.
  intros H Hp. unfold iplist_insert.
  apply bind_Fail. by eapply addNodeToList_Fail.
Qed.

Lemma iplist_remove_Fail this I σ r :
  Insts σ !! I = Some r → ParentBB r = None →
  iplist_remove this I σ = Fail (AssertionFailure "Not in a list!").
Proof.
  intros H Hp. unfold iplist_remove.
  apply bind_Fail. by eapply removeNodeFromList_Fail.
Qed.

(** C7: adding an instruction whose parent pointer is already set to a
    block's list stops in the assertion "Already in a list!", and removing
    one whose parent pointer is null stops in the assertion "Not in a
    list!", at the callback and at the list operation alike; with a null
    parent on insertion and a set parent on removal the callbacks return, so
    neither assertion fires. *)
Theorem insert_remove_assertions (this : BlockId) (pos : nat) (I : InstId)
    (σ : State) (r : Instruction) :
  Insts σ !! I = Some r →
  (ParentBB r ≠ None →
     addNodeToList this I σ = Fail (AssertionFailure "Already in a list!") ∧
     iplist_insert this pos I σ = Fail (AssertionFailure "Already in a list!") ∧
     ∃ σ', removeNodeFromList this I σ = Ok (tt, σ')) ∧
  (ParentBB r = None →
     removeNodeFromList this I σ = Fail (AssertionFailure "Not in a list!") ∧
     iplist_remove this I σ = Fail (AssertionFailure "Not in a list!") ∧
     ∃ σ', addNodeToList this I σ = Ok (tt, σ')).
Proof.
  intros H. split; intros Hp.
  - split; [by eapply addNodeToList_Fail|].
    split; [by eapply iplist_insert_Fail|].
    eexists. by eapply removeNodeFromList_eq.
  - split; [by eapply removeNodeFromList_Fail|].
    split; [by eapply iplist_remove_Fail|].
    eexists. by eapply addNodeToList_eq.
Qed.

(** ** The parent update pass *)

Lemma with_parents_Blocks P run σ : Blocks (with_parents P run σ) = Blocks σ.
Proof. revert σ. induction run as [|I run IH]; intros σ; simpl; [done|]. by rewrite IH. Qed.

Lemma with_parents_ArenaNext P run σ : ArenaNext (with_parents P run σ) = ArenaNext σ.
Proof. revert σ. induction run as [|I run IH]; intros σ; simpl; [done|]. by rewrite IH. Qed.

Lemma with_parents_Log P run σ :
  Log (with_parents P run σ) =
  reverse ((λ I, EvSetParent I (Some P)) <$> run) ++ Log σ.
Proof.
  revert σ. induction run as [|I run IH]; intros σ; simpl; [done|].
  rewrite IH, reverse_cons, <- app_assoc. done.
Qed.

Lemma set_ParentBB_idemp p r : set_ParentBB p (set_ParentBB p r) = set_ParentBB p r.
Proof. done. Qed.

Lemma with_parents_lookup P run σ J :
  Insts (with_parents P run σ) !! J =
  if decide (J ∈ run) then set_ParentBB (Some P) <$> Insts σ !! J else Insts σ !! J.
Proof.
  revert σ. induction run as [|I run IH]; intros σ; [done|].
  - change (with_parents P (I :: run) σ)
      with (with_parents P run (with_parent I (Some P) σ)).
    rewrite IH, with_parent_lookup.
    destruct (decide (J ∈ run)) as [Hin|Hin], (decide (I = J)) as [->|Hne].
    + rewrite decide_True by (by left). by destruct (Insts σ !! J).
    + rewrite decide_True by (by right). done.
    + rewrite decide_True by (by left). done.
    + rewrite decide_False; [done|]. rewrite elem_of_cons. by intros [?|?].
Qed.

Lemma with_parents_is_Some P run σ J :
  is_Some (Insts (with_parents P run σ) !! J) ↔ is_Some (Insts σ !! J).
Proof. rewrite with_parents_lookup. case_decide; [|done]. by rewrite fmap_is_Some. Qed.

Lemma transferNodes_loop_unfold P nodes first last :
  transferNodes_loop P nodes first last =
  if bool_decide (first = last) then ret tt
  else match nodes with
       | [] => fail Undefined
       | Node :: rest =>
           write_ParentBB Node (Some P) ;;
           transferNodes_loop P rest (S first) last
       end.
Proof. by destruct nodes. Qed.

Lemma transferNodes_loop_eq P run tail first σ :
  (∀ I, I ∈ run → is_Some (Insts σ !! I)) →
  transferNodes_loop P (run ++ tail) first (first + length run) σ =
  Ok (tt, with_parents P run σ).
Proof.
  revert first σ. induction run as [|I run IH]; intros first σ Hlive.
  - rewrite transferNodes_loop_unfold. simpl.
    by rewrite bool_decide_eq_true_2 by lia.
  - rewrite transferNodes_loop_unfold. simpl.
    rewrite bool_decide_eq_false_2 by lia.
    destruct (Hlive I) as [r Hr]; [by left|].
    rewrite (bind_eq _ _ _ _ _ (write_ParentBB_eq _ _ _ _ Hr)).
    replace (first + S (length run))%nat with (S first + length run)%nat by lia.
    apply IH. intros J HJ. rewrite with_parent_lookup.
    case_decide; [rewrite fmap_is_Some|]; apply Hlive; by right.
Qed.

Lemma transferNodesFromList_same B first last σ :
  transferNodesFromList B B first last σ = Ok (tt, add_Log (EvCompareBlocks B B) σ).
Proof.
  unfold transferNodesFromList, getContainingBlock.
  unfold bind at 1. simpl. by rewrite bool_decide_eq_true_2.
Qed.

Lemma transferNodesFromList_other this L2 first n σ l :
  this ≠ L2 →
  Blocks σ !! this = Some l →
  (first + n ≤ length l)%nat →
  (∀ I, I ∈ take n (drop first l) → is_Some (Insts σ !! I)) →
  transferNodesFromList this L2 first (first + n) σ =
  Ok (tt, with_parents this (take n (drop first l))
            (add_Log (EvCompareBlocks this L2) σ)).
Proof.
  intros Hne Hl Hlen Hlive.
  unfold transferNodesFromList, getContainingBlock.
  unfold bind at 1. simpl. rewrite bool_decide_eq_false_2 by done.
  rewrite (bind_eq _ _ _ l (add_Log (EvCompareBlocks this L2) σ));
    [|by apply getInsts_eq].
  assert (length (take n (drop first l)) = n) as Hn.
  { rewrite length_take, length_drop. lia. }
  pose proof (transferNodes_loop_eq this (take n (drop first l))
                (drop n (drop first l)) first
                (add_Log (EvCompareBlocks this L2) σ) Hlive) as Hloop.
  by rewrite take_drop, Hn in Hloop.
Qed.

(** ** Cutting a run out of a list and putting it into another *)

Section Runs.
Context {A : Type}.
Implicit Types l src dst run : list A.

Lemma split_run l first last :
  (first ≤ last)%nat → (last ≤ length l)%nat →
  l = take first l ++ take (last - first) (drop first l) ++ drop last l.
Proof.
  intros H1 H2.
  rewrite <- (take_drop first l) at 1. f_equal.
  rewrite <- (take_drop (last - first) (drop first l)) at 1. f_equal.
  rewrite drop_drop. f_equal. lia.
Qed.

Lemma length_run l first last :
  (first ≤ last)%nat → (last ≤ length l)%nat →
  length (take (last - first) (drop first l)) = (last - first)%nat.
Proof. intros. rewrite length_take, length_drop. lia. Qed.

Lemma length_rest l first last :
  (first ≤ last)%nat → (last ≤ length l)%nat →
  length (take first l ++ drop last l) = (length l - (last - first))%nat.
Proof. intros. rewrite length_app, length_take, length_drop. lia. Qed.

Lemma elem_of_put run dst pos (x : A) :
  x ∈ take pos dst ++ run ++ drop pos dst ↔ x ∈ dst ∨ x ∈ run.
Proof.
  rewrite <- (take_drop pos dst) at 3.
  rewrite !elem_of_app. tauto.
Qed.

Lemma elem_of_rest l first last (x : A) :
  NoDup l → (first ≤ last)%nat → (last ≤ length l)%nat →
  x ∈ take first l ++ drop last l ↔
  x ∈ l ∧ x ∉ take (last - first) (drop first l).
Proof.
  intros Hnd H1 H2.
  rewrite (split_run l first last H1 H2) in Hnd.
  apply NoDup_app in Hnd as (_ & Hd1 & Hnd).
  apply NoDup_app in Hnd as (_ & Hd2 & _).
  rewrite (split_run l first last H1 H2) at 3.
  rewrite !elem_of_app. split.
  - intros [Hx|Hx].
    + split; [by left|]. intros Hr. apply (Hd1 x Hx). rewrite elem_of_app. by left.
    + split; [by right; right|]. intros Hr. by apply (Hd2 x Hr).
  - intros [[Hx|[Hx|Hx]] Hr]; [by left|done|by right].
Qed.

Lemma elem_of_run l first last (x : A) :
  x ∈ take (last - first) (drop first l) → x ∈ l.
Proof.
  intros Hx. apply (subseteq_drop first l), (subseteq_take (last - first) _), Hx.
Qed.

Lemma NoDup_rest l first last :
  NoDup l → (first ≤ last)%nat → (last ≤ length l)%nat →
  NoDup (take first l ++ drop last l).
Proof.
  intros Hnd H1 H2.
  rewrite (split_run l first last H1 H2) in Hnd.
  apply NoDup_app in Hnd as (Hn1 & Hd1 & Hnd).
  apply NoDup_app in Hnd as (_ & _ & Hn3).
  apply NoDup_app. split; [done|]. split; [|done].
  intros x Hx Hx'. apply (Hd1 x Hx). rewrite elem_of_app. by right.
Qed.

Lemma NoDup_run l first last :
  NoDup l → (first ≤ last)%nat → (last ≤ length l)%nat →
  NoDup (take (last - first) (drop first l)).
Proof.
  intros Hnd H1 H2.
  rewrite (split_run l first last H1 H2) in Hnd.
  apply NoDup_app in Hnd as (_ & _ & Hnd).
  by apply NoDup_app in Hnd as (? & _ & _).
Qed.

Lemma NoDup_put run dst pos :
  NoDup dst → NoDup run → (∀ x, x ∈ run → x ∉ dst) →
  NoDup (take pos dst ++ run ++ drop pos dst).
Proof.
  intros Hd Hr Hdis.
  rewrite <- (take_drop pos dst) in Hd.
  apply NoDup_app in Hd as (Hd1 & Hd12 & Hd2).
  assert (∀ x, x ∈ run → (x ∉ take pos dst) ∧ (x ∉ drop pos dst)) as Hdis'.
  { intros x Hx. pose proof (Hdis x Hx) as Hn.
    rewrite <- (take_drop pos dst), elem_of_app in Hn. tauto. }
  apply NoDup_app. split; [done|]. split.
  - intros x Hx. rewrite elem_of_app. intros [Hx'|Hx'].
    + destruct (Hdis' x Hx') as [Hn _]. by apply Hn.
    + by apply (Hd12 x Hx).
  - apply NoDup_app. split; [done|]. split; [|done].
    intros x Hx. by destruct (Hdis' x Hx) as [_ Hn].
Qed.

Lemma elem_of_put1 dst pos (y x : A) :
  x ∈ take pos dst ++ y :: drop pos dst ↔ x ∈ dst ∨ x = y.
Proof.
  change (y :: drop pos dst) with ([y] ++ drop pos dst).
  by rewrite elem_of_put, list_elem_of_singleton.
Qed.

Lemma NoDup_put1 dst pos (y : A) :
  NoDup dst → y ∉ dst → NoDup (take pos dst ++ y :: drop pos dst).
Proof.
  intros Hd Hy. change (y :: drop pos dst) with ([y] ++ drop pos dst).
  apply NoDup_put; [done|apply NoDup_singleton|].
  by intros x ->%list_elem_of_singleton.
Qed.

(** Outside the run that was put in at [pos], the list is what it was. *)
Lemma outside_put run dst pos :
  (pos ≤ length dst)%nat →
  let l' := take pos dst ++ run ++ drop pos dst in
  take pos l' ++ drop (pos + length run) l' = dst.
Proof.
  intros Hpos l'. subst l'.
  assert (length (take pos dst) = pos) as Hlen by (rewrite length_take; lia).
  rewrite take_app_length' by done.
  rewrite app_assoc, drop_app_length' by (rewrite length_app; lia).
  apply take_drop.
Qed.
End Runs.

(** ** Splicing *)

Lemma bind_modify {B} f (k : unit → M B) σ : bind (modify f) k σ = k tt (f σ).
Proof. done. Qed.

Lemma iplist_splice_eq this pos L2 first last σ src dst :
  Blocks σ !! L2 = Some src →
  (first ≤ last)%nat → (last ≤ length src)%nat →
  <[L2 := take first src ++ drop last src]> (Blocks σ) !! this = Some dst →
  (pos ≤ length dst)%nat →
  iplist_splice this pos L2 first last σ =
  transferNodesFromList this L2 pos
    (pos + length (take (last - first) (drop first src)))
    (relinked this pos L2 first last src dst σ).
Proof.
  intros Hsrc H1 H2 Hdst Hpos. unfold iplist_splice.
  rewrite (bind_eq _ _ _ _ _ (getInsts_eq _ _ _ Hsrc)).
  rewrite bool_decide_eq_true_2 by done.
  rewrite bind_modify.
  rewrite (bind_eq _ _ _ dst (set_Blocks (<[L2 := take first src ++ drop last src]>) σ))
    by (by apply getInsts_eq).
  rewrite bool_decide_eq_true_2 by done.
  by rewrite bind_modify.
Qed.

Lemma transfer_relinked this pos L2 first last σ src dst :
  this ≠ L2 →
  (first ≤ last)%nat → (last ≤ length src)%nat → (pos ≤ length dst)%nat →
  (∀ I, I ∈ take (last - first) (drop first src) → is_Some (Insts σ !! I)) →
  transferNodesFromList this L2 pos
    (pos + length (take (last - first) (drop first src)))
    (relinked this pos L2 first last src dst σ) =
  Ok (tt, with_parents this (take (last - first) (drop first src))
            (add_Log (EvCompareBlocks this L2)
               (relinked this pos L2 first last src dst σ))).
Proof.
  intros Hne H1 H2 Hpos Hlive.
  set (run := take (last - first) (drop first src)) in *.
  assert (length run = (last - first)%nat) as Hlen by (by apply length_run).
  assert (take (last - first) (drop pos (take pos dst ++ run ++ drop pos dst)) = run)
    as Hrun.
  { rewrite drop_app_length' by (rewrite length_take; lia).
    by rewrite take_app_length'. }
  rewrite Hlen.
  rewrite (transferNodesFromList_other this L2 pos (last - first) _
             (take pos dst ++ run ++ drop pos dst)); [by rewrite Hrun|done| | |].
  - simpl. apply lookup_insert_eq.
  - rewrite length_app, length_app, length_take, length_drop. lia.
  - by rewrite Hrun.
Qed.

(** C1: a splice of a run of a block [B] into [B] itself succeeds, and the
    callback compares the two block pointers once and writes no parent
    pointer: the log grows by that one comparison and the instructions are
    untouched, so every moved instruction still has parent [B]; the run is
    relinked at the new position, and outside the run the list of [B] reads
    as before, as does every other list. *)
Theorem splice_same_block (B : BlockId) (pos first last : nat) (σ : State)
    (l : list InstId) :
  wf σ →
  Blocks σ !! B = Some l →
  (first ≤ last)%nat → (last ≤ length l)%nat →
  (pos ≤ length l - (last - first))%nat →
  let run := take (last - first) (drop first l) in
  let rest := take first l ++ drop last l in
  ∃ σ', iplist_splice B pos B first last σ = Ok (tt, σ') ∧
    Log σ' = EvCompareBlocks B B :: Log σ ∧
    Insts σ' = Insts σ ∧
    (∀ I, I ∈ run → parent_of σ' I = Some B) ∧
    Blocks σ' = <[B := take pos rest ++ run ++ drop pos rest]> (Blocks σ) ∧
    (∀ l', Blocks σ' !! B = Some l' →
       take pos l' ++ drop (pos + length run) l' = rest) ∧
    (∀ B', B' ≠ B → Blocks σ' !! B' = Blocks σ !! B').
Proof.
  intros Hwf Hl H1 H2 Hpos run rest.
  assert (length rest = (length l - (last - first))%nat) as Hrest
    by (by apply length_rest).
  eexists. split.
  { rewrite (iplist_splice_eq B pos B first last σ l rest Hl H1 H2).
    - apply transferNodesFromList_same.
    - apply lookup_insert_eq.
    - lia. }
  simpl. split; [done|]. split; [done|]. split.
  { intros I HI. unfold parent_of. simpl.
    destruct (wf_live σ Hwf B l I Hl) as [r Hr]; [by eapply elem_of_run|].
    rewrite Hr. simpl. apply (wf_parent σ Hwf I r B Hr).
    exists l. split; [done|]. by eapply elem_of_run. }
  split; [by rewrite insert_insert_eq|]. split.
  { intros l'. rewrite lookup_insert_eq. intros [= <-].
    apply outside_put. lia. }
  intros B' Hne. by rewrite !lookup_insert_ne.
Qed.

(** C3: a splice of a run of block [B1] into another block [B2] succeeds
    and sets the parent pointer of every instruction of the run to [B2], by
    one write each after the one comparison of the blocks; the instructions
    left in [B1] keep parent [B1], no instruction outside the run is
    touched, and the two lists are relinked. *)
Theorem splice_cross_block (B1 B2 : BlockId) (pos first last : nat) (σ : State)
    (src dst : list InstId) :
  wf σ →
  B1 ≠ B2 →
  Blocks σ !! B1 = Some src →
  Blocks σ !! B2 = Some dst →
  (first ≤ last)%nat → (last ≤ length src)%nat →
  (pos ≤ length dst)%nat →
  let run := take (last - first) (drop first src) in
  let rest := take first src ++ drop last src in
  ∃ σ', iplist_splice B2 pos B1 first last σ = Ok (tt, σ') ∧
    (∀ I, I ∈ run → parent_of σ' I = Some B2) ∧
    Blocks σ' !! B1 = Some rest ∧
    (∀ I, I ∈ rest → parent_of σ' I = Some B1) ∧
    Blocks σ' !! B2 = Some (take pos dst ++ run ++ drop pos dst) ∧
    (∀ I, I ∉ run → Insts σ' !! I = Insts σ !! I) ∧
    Log σ' = reverse ((λ I, EvSetParent I (Some B2)) <$> run)
             ++ EvCompareBlocks B2 B1 :: Log σ.
Proof.
  intros Hwf Hne Hsrc Hdst H1 H2 Hpos run rest.
  assert (∀ I, I ∈ run → is_Some (Insts σ !! I)) as Hlive.
  { intros I HI. apply (wf_live σ Hwf B1 src I Hsrc). by eapply elem_of_run. }
  eexists. split.
  { rewrite (iplist_splice_eq B2 pos B1 first last σ src dst Hsrc H1 H2);
      [|by rewrite lookup_insert_ne|done].
    apply transfer_relinked; [by auto|done..]. }
  fold run. split; [|split; [|split; [|split; [|split]]]].
  - intros I HI. unfold parent_of. rewrite with_parents_lookup.
    rewrite decide_True by done. simpl.
    destruct (Hlive I HI) as [r ->]. done.
  - rewrite with_parents_Blocks. simpl.
    rewrite lookup_insert_ne by done. apply lookup_insert_eq.
  - intros I HI. unfold parent_of. rewrite with_parents_lookup.
    apply elem_of_rest in HI as [HI Hnot]; [|by eapply wf_NoDup|done..].
    rewrite decide_False by done. simpl.
    destruct (wf_live σ Hwf B1 src I Hsrc HI) as [r Hr]. rewrite Hr. simpl.
    apply (wf_parent σ Hwf I r B1 Hr). by exists src.
  - rewrite with_parents_Blocks. simpl. apply lookup_insert_eq.
  - intros I HI. rewrite with_parents_lookup. by rewrite decide_False.
  - by rewrite with_parents_Log.
Qed.

(** ** The consistency of the store is kept by every operation *)

Lemma wf_initial : wf initial.
Proof.
  split; simpl.
  - intros B l. by rewrite lookup_empty.
  - intros I r B. by rewrite lookup_empty.
  - intros B l I. by rewrite lookup_empty.
  - intros I [r Hr]. by rewrite lookup_empty in Hr.
Qed.

Lemma wf_unlinked σ I r :
  wf σ → Insts σ !! I = Some r → ParentBB r = None → ∀ B, ¬ linked σ I B.
Proof.
  intros Hwf Hr Hp B Hlink.
  apply (wf_parent σ Hwf I r B Hr) in Hlink. congruence.
Qed.

Lemma BasicBlock_ctor_Ok B σ u σ' :
  BasicBlock_ctor B σ = Ok (u, σ') ↔
  Blocks σ !! B = None ∧ σ' = set_Blocks (<[B := []]>) σ.
Proof.
  unfold BasicBlock_ctor, bind, get, fail. destruct (Blocks σ !! B) as [l0|].
  - split; [done | by intros [[=] _]].
  - rewrite modify_Ok. by split; [|intros [_ ->]].
Qed.

Lemma addNodeToList_Ok this I σ u σ' :
  addNodeToList this I σ = Ok (u, σ') ↔
  ∃ r, Insts σ !! I = Some r ∧ ParentBB r = None ∧
       σ' = with_parent I (Some this) σ.
Proof.
  split.
  - intros H. unfold addNodeToList in H.
    apply bind_Ok in H as (r & σ1 & Hr & H). apply deref_Ok in Hr as [Hr ->].
    apply bind_Ok in H as (? & σ2 & Ha & H). apply assert_Ok in Ha as [Ha ->].
    apply bool_decide_eq_true in Ha.
    apply write_ParentBB_Ok in H as [_ ->]. by exists r.
  - intros (r & Hr & Hp & ->). destruct u. by eapply addNodeToList_eq.
Qed.

Lemma removeNodeFromList_Ok this I σ u σ' :
  removeNodeFromList this I σ = Ok (u, σ') ↔
  ∃ r, Insts σ !! I = Some r ∧ ParentBB r ≠ None ∧ σ' = with_parent I None σ.
Proof.
  split.
  - intros H. unfold removeNodeFromList in H.
    apply bind_Ok in H as (r & σ1 & Hr & H). apply deref_Ok in Hr as [Hr ->].
    apply bind_Ok in H as (? & σ2 & Ha & H). apply assert_Ok in Ha as [Ha ->].
    apply bool_decide_eq_true in Ha.
    apply write_ParentBB_Ok in H as [_ ->]. by exists r.
  - intros (r & Hr & Hp & ->). destruct u. by eapply removeNodeFromList_eq.
Qed.

Lemma iplist_insert_Ok this pos I σ u σ' :
  iplist_insert this pos I σ = Ok (u, σ') ↔
  ∃ r l, Insts σ !! I = Some r ∧ ParentBB r = None ∧
         Blocks σ !! this = Some l ∧ (pos ≤ length l)%nat ∧
         σ' = inserted this pos I l σ.
Proof.
  unfold iplist_insert. rewrite bind_Ok. split.
  - intros (? & σ1 & (r & Hr & Hp & ->)%addNodeToList_Ok & H).
    apply bind_Ok in H as (l & σ2 & Hl & H). apply getInsts_Ok in Hl as [Hl ->].
    case_bool_decide; [|done]. apply modify_Ok in H as ->. by exists r, l.
  - intros (r & l & Hr & Hp & Hl & Hpos & ->).
    exists tt, (with_parent I (Some this) σ). split; [by eapply addNodeToList_eq|].
    rewrite (bind_eq _ _ _ l (with_parent I (Some this) σ)) by (by apply getInsts_eq).
    rewrite bool_decide_eq_true_2 by done. by destruct u.
Qed.

Lemma iplist_remove_Ok this I σ u σ' :
  iplist_remove this I σ = Ok (u, σ') ↔
  ∃ r l, Insts σ !! I = Some r ∧ ParentBB r ≠ None ∧
         Blocks σ !! this = Some l ∧ I ∈ l ∧ σ' = removed this I l σ.
Proof.
  unfold iplist_remove. rewrite bind_Ok. split.
  - intros (? & σ1 & (r & Hr & Hp & ->)%removeNodeFromList_Ok & H).
    apply bind_Ok in H as (l & σ2 & Hl & H). apply getInsts_Ok in Hl as [Hl ->].
    case_bool_decide; [|done]. apply modify_Ok in H as ->. by exists r, l.
  - intros (r & l & Hr & Hp & Hl & Hin & ->).
    exists tt, (with_parent I None σ). split; [by eapply removeNodeFromList_eq|].
    rewrite (bind_eq _ _ _ l (with_parent I None σ)) by (by apply getInsts_eq).
    rewrite bool_decide_eq_true_2 by done. by destruct u.
Qed.

Lemma wf_BasicBlock_ctor B σ u σ' :
  wf σ → BasicBlock_ctor B σ = Ok (u, σ') → wf σ'.
Proof.
  intros Hwf [HB ->]%BasicBlock_ctor_Ok.
  assert (∀ I B', linked (set_Blocks <[B:=[]]> σ) I B' ↔ linked σ I B') as Hlink.
  { intros I B'. unfold linked. simpl. destruct (decide (B = B')) as [<-|Hne].
    - rewrite lookup_insert_eq, HB. split; intros (l & Hl & Hin); [|done].
      injection Hl as <-. by apply elem_of_nil in Hin.
    - by rewrite lookup_insert_ne. }
  split; simpl.
  - intros B' l. destruct (decide (B = B')) as [<-|Hne].
    + rewrite lookup_insert_eq. intros [= <-]. constructor.
    + rewrite lookup_insert_ne by done. apply Hwf.
  - intros I r B' Hr. rewrite Hlink. by apply Hwf.
  - intros B' l I Hl Hin. assert (linked σ I B') as (l' & Hl' & Hin').
    { apply Hlink. by exists l. }
    by eapply wf_live.
  - apply Hwf.
Qed.

Lemma linked_inserted this pos I l σ J B :
  Blocks σ !! this = Some l →
  linked (inserted this pos I l σ) J B ↔ linked σ J B ∨ (J = I ∧ B = this).
Proof.
  intros Hl. unfold linked, inserted. simpl.
  destruct (decide (this = B)) as [<-|Hne].
  - rewrite lookup_insert_eq. split.
    + intros (l' & [= <-] & Hin).
      apply elem_of_put1 in Hin as [Hin|Hin]; eauto.
    + intros [(l' & Hl' & Hin)|[-> _]]; eexists; (split; [done|]);
        apply elem_of_put1; [left; congruence|by right].
  - rewrite lookup_insert_ne by done. split; [eauto|].
    intros [?|[_ ->]]; done.
Qed.

Lemma wf_iplist_insert this pos I σ u σ' :
  wf σ → iplist_insert this pos I σ = Ok (u, σ') → wf σ'.
Proof.
  intros Hwf (r & l & Hr & Hp & Hl & Hpos & ->)%iplist_insert_Ok.
  assert (I ∉ l) as Hfresh.
  { intros Hin. eapply (wf_unlinked σ I r Hwf Hr Hp this). by exists l. }
  split.
  - intros B l'. simpl. destruct (decide (this = B)) as [<-|Hne].
    + rewrite lookup_insert_eq. intros [= <-].
      apply NoDup_put1; [by eapply wf_NoDup|done].
    + rewrite lookup_insert_ne by done. apply Hwf.
  - intros J r' B. rewrite (linked_inserted _ _ _ _ _ _ _ Hl).
    change (Insts (inserted this pos I l σ)) with (Insts (with_parent I (Some this) σ)).
    rewrite with_parent_lookup. case_decide as HJ.
    + subst J. rewrite Hr. simpl. intros [= <-]. simpl. split.
      * intros [= <-]. by right.
      * intros [Hl0|[_ ->]]; [|done].
        by apply (wf_unlinked σ I r Hwf Hr Hp) in Hl0.
    + intros Hr'. rewrite (wf_parent σ Hwf J r' B Hr'). split; [by left|].
      intros [?|[-> _]]; done.
  - intros B l' J Hl' Hin.
    change (Insts (inserted this pos I l σ)) with (Insts (with_parent I (Some this) σ)).
    rewrite with_parent_lookup.
    assert (linked σ J B ∨ J = I ∧ B = this) as [(l0 & Hl0 & Hin0)|[-> ->]].
    { apply (linked_inserted _ pos _ _ _ _ _ Hl). by exists l'. }
    + case_decide; [rewrite fmap_is_Some|]; by eapply wf_live.
    + rewrite decide_True by done. by rewrite Hr.
  - intros J. simpl. rewrite lookup_alter. case_decide; [subst; rewrite fmap_is_Some|];
      apply Hwf.
Qed.

Lemma linked_removed this I l σ J B :
  Blocks σ !! this = Some l →
  linked (removed this I l σ) J B ↔ linked σ J B ∧ ¬ (J = I ∧ B = this).
Proof.
  intros Hl. unfold linked, removed. simpl.
  destruct (decide (this = B)) as [<-|Hne].
  - rewrite lookup_insert_eq. split.
    + intros (l' & [= <-] & [Hne Hin]%list_elem_of_filter).
      split; [by exists l|]. by intros [? _].
    + intros [(l' & Hl' & Hin) Hn]. eexists. split; [done|].
      apply list_elem_of_filter. split; [|congruence].
      intros ->. by apply Hn.
  - rewrite lookup_insert_ne by done. split; [|by intros [? _]].
    intros Hlink. split; [done|]. by intros [_ ->].
Qed.

Lemma wf_removed this I l σ r :
  wf σ → Insts σ !! I = Some r → Blocks σ !! this = Some l → I ∈ l →
  wf (removed this I l σ).
Proof.
  intros Hwf Hr Hl Hin.
  assert (ParentBB r = Some this) as Hp.
  { apply (wf_parent σ Hwf I r this Hr). by exists l. }
  split.
  - intros B l'. simpl. destruct (decide (this = B)) as [<-|Hne].
    + rewrite lookup_insert_eq. intros [= <-]. apply NoDup_filter. by eapply wf_NoDup.
    + rewrite lookup_insert_ne by done. apply Hwf.
  - intros J r' B. rewrite (linked_removed _ _ _ _ _ _ Hl).
    change (Insts (removed this I l σ)) with (Insts (with_parent I None σ)).
    rewrite with_parent_lookup. case_decide as HJ.
    + subst J. rewrite Hr. simpl. intros [= <-]. simpl. split; [done|].
      intros [Hlink Hn]. apply (wf_parent σ Hwf I r B Hr) in Hlink.
      exfalso. apply Hn. split; congruence.
    + intros Hr'. rewrite (wf_parent σ Hwf J r' B Hr'). split; [|by intros [? _]].
      intros Hlink. split; [done|]. intros [-> _]. done.
  - intros B l' J Hl' Hin'.
    change (Insts (removed this I l σ)) with (Insts (with_parent I None σ)).
    rewrite with_parent_lookup.
    assert (linked σ J B) as (l0 & Hl0 & Hin0).
    { eapply proj1, (linked_removed this I l σ J B Hl). by exists l'. }
    case_decide; [rewrite fmap_is_Some|]; by eapply wf_live.
  - intros J. simpl. rewrite lookup_alter. case_decide; [subst; rewrite fmap_is_Some|];
      apply Hwf.
Qed.

Lemma wf_iplist_remove this I σ u σ' :
  wf σ → iplist_remove this I σ = Ok (u, σ') → wf σ'.
Proof.
  intros Hwf (r & l & Hr & Hp & Hl & Hin & ->)%iplist_remove_Ok.
  by eapply wf_removed.
Qed.

Lemma deleteNode_Ok I σ u σ' :
  deleteNode I σ = Ok (u, σ') ↔ is_Some (Insts σ !! I) ∧ σ' = set_Insts (delete I) σ.
Proof.
  unfold deleteNode. rewrite bind_Ok. split.
  - intros (r & σ1 & [Hr ->]%deref_Ok & ->%modify_Ok). eauto.
  - intros [[r Hr] ->]. exists r, σ. by rewrite deref_Ok, modify_Ok.
Qed.

Lemma wf_deleted I σ r :
  wf σ → Insts σ !! I = Some r → ParentBB r = None → wf (set_Insts (delete I) σ).
Proof.
  intros Hwf Hr Hp. split; simpl.
  - apply Hwf.
  - intros J r' B [HJ Hr']%lookup_delete_Some. by apply Hwf.
  - intros B l J Hl Hin. rewrite lookup_delete_ne; [by eapply wf_live|].
    intros <-. eapply (wf_unlinked σ I r Hwf Hr Hp B). by exists l.
  - intros J [r' [_ Hr']%lookup_delete_Some]. by apply Hwf.
Qed.

Lemma iplist_erase_Ok this I σ u σ' :
  iplist_erase this I σ = Ok (u, σ') ↔
  ∃ r l, Insts σ !! I = Some r ∧ ParentBB r ≠ None ∧
         Blocks σ !! this = Some l ∧ I ∈ l ∧
         σ' = set_Insts (delete I) (removed this I l σ).
Proof.
  unfold iplist_erase. rewrite bind_Ok. split.
  - intros (? & σ1 & (r & l & Hr & Hp & Hl & Hin & ->)%iplist_remove_Ok & H).
    apply deleteNode_Ok in H as [_ ->]. by exists r, l.
  - intros (r & l & Hr & Hp & Hl & Hin & ->).
    exists tt, (removed this I l σ). split.
    + apply iplist_remove_Ok. by exists r, l.
    + apply deleteNode_Ok. split; [|done].
      change (Insts (removed this I l σ)) with (Insts (with_parent I None σ)).
      rewrite with_parent_lookup, decide_True by done. by rewrite Hr.
Qed.

Lemma wf_iplist_erase this I σ u σ' :
  wf σ → iplist_erase this I σ = Ok (u, σ') → wf σ'.
Proof.
  intros Hwf (r & l & Hr & Hp & Hl & Hin & ->)%iplist_erase_Ok.
  eapply (wf_deleted I _ (set_ParentBB None r)); [by eapply wf_removed| |done].
  change (Insts (removed this I l σ)) with (Insts (with_parent I None σ)).
  rewrite with_parent_lookup, decide_True by done. by rewrite Hr.
Qed.

Lemma getParent_Ok I σ B σ' :
  getParent I σ = Ok (B, σ') ↔
  ∃ r, Insts σ !! I = Some r ∧ ParentBB r = Some B ∧ σ' = σ.
Proof.
  unfold getParent. rewrite bind_Ok. split.
  - intros (r & σ1 & [Hr ->]%deref_Ok & H). exists r.
    destruct (ParentBB r); [|done]. by injection H as -> ->.
  - intros (r & Hr & Hp & ->). exists r, σ. rewrite deref_Ok, Hp. done.
Qed.

Lemma wf_removeFromParent I σ u σ' :
  wf σ → removeFromParent I σ = Ok (u, σ') → wf σ'.
Proof.
  unfold removeFromParent. intros Hwf H.
  apply bind_Ok in H as (B & σ1 & (r & Hr & Hp & ->)%getParent_Ok & H).
  by eapply wf_iplist_remove.
Qed.

Lemma wf_eraseFromParent I σ u σ' :
  wf σ → eraseFromParent I σ = Ok (u, σ') → wf σ'.
Proof.
  unfold eraseFromParent. intros Hwf H.
  apply bind_Ok in H as (B & σ1 & (r & Hr & Hp & ->)%getParent_Ok & H).
  by eapply wf_iplist_erase.
Qed.

Lemma iplist_splice_Ok this pos L2 first last σ u σ' :
  iplist_splice this pos L2 first last σ = Ok (u, σ') →
  ∃ src dst,
    Blocks σ !! L2 = Some src ∧ (first ≤ last)%nat ∧ (last ≤ length src)%nat ∧
    <[L2 := take first src ++ drop last src]> (Blocks σ) !! this = Some dst ∧
    (pos ≤ length dst)%nat ∧
    transferNodesFromList this L2 pos
      (pos + length (take (last - first) (drop first src)))
      (relinked this pos L2 first last src dst σ) = Ok (u, σ').
Proof.
  unfold iplist_splice. intros H.
  apply bind_Ok in H as (src & σ1 & [Hsrc ->]%getInsts_Ok & H).
  case_bool_decide as Hb; [|done]. destruct Hb as [H1 H2].
  rewrite bind_modify in H.
  apply bind_Ok in H as (dst & σ2 & [Hdst ->]%getInsts_Ok & H).
  case_bool_decide as Hpos; [|done].
  rewrite bind_modify in H. by exists src, dst.
Qed.

Section Spliced.
Context (this : BlockId) (pos : nat) (L2 : BlockId) (first last : nat).
Context (σ : State) (src dst : list InstId).
Context (Hwf : wf σ).
Context (Hsrc : Blocks σ !! L2 = Some src).
Context (H1 : (first ≤ last)%nat) (H2 : (last ≤ length src)%nat).
Context (Hdst : <[L2 := take first src ++ drop last src]> (Blocks σ) !! this
                = Some dst).

Let run := take (last - first) (drop first src).
Let rest := take first src ++ drop last src.
Let σ1 := relinked this pos L2 first last src dst σ.

Lemma spliced_run_src J : J ∈ run → linked σ J L2.
Proof. intros HJ. exists src. split; [done|]. by eapply elem_of_run. Qed.

Lemma spliced_dst J : J ∈ dst ↔ (J ∉ run) ∧ linked σ J this.
Proof.
  destruct (decide (L2 = this)) as [<-|Hne].
  - rewrite lookup_insert_eq in Hdst. injection Hdst as <-.
    rewrite elem_of_rest by (try done; by eapply wf_NoDup). split.
    + intros [Hin Hn]. split; [done|]. by exists src.
    + intros [Hn (l & Hl & Hin)]. split; [congruence|done].
  - rewrite lookup_insert_ne in Hdst by done. split.
    + intros Hin. split; [|by exists dst].
      intros Hr. apply spliced_run_src in Hr as (l & Hl & Hin').
      destruct (wf_live σ Hwf this dst J Hdst Hin) as [r Hr].
      assert (ParentBB r = Some this) as Hp1
        by (apply (wf_parent σ Hwf J r this Hr); by exists dst).
      assert (ParentBB r = Some L2) as Hp2
        by (apply (wf_parent σ Hwf J r L2 Hr); by exists l).
      congruence.
    + intros [_ (l & Hl & Hin)]. congruence.
Qed.

Lemma linked_spliced J B :
  linked σ1 J B ↔ (J ∈ run ∧ B = this) ∨ ((J ∉ run) ∧ linked σ J B).
Proof.
  unfold linked at 1. simpl.
  destruct (decide (this = B)) as [<-|Hne].
  - rewrite lookup_insert_eq. split.
    + intros (l & [= <-] & Hin). apply elem_of_put in Hin as [Hin|Hin].
      * right. by apply spliced_dst.
      * by left.
    + intros [[Hin _]|Hin]; eexists; (split; [done|]); apply elem_of_put.
      * by right.
      * left. by apply spliced_dst.
  - rewrite lookup_insert_ne by done.
    destruct (decide (L2 = B)) as [<-|Hne2].
    + rewrite lookup_insert_eq. split.
      * intros (l & [= <-] & Hin).
        apply elem_of_rest in Hin as [Hin Hn]; [|by eapply wf_NoDup|done..].
        right. split; [done|]. by exists src.
      * intros [[_ ->]|[Hn (l & Hl & Hin)]]; [done|].
        eexists. split; [done|].
        apply elem_of_rest; [by eapply wf_NoDup|done..|]. split; [congruence|done].
    + rewrite lookup_insert_ne by done. split.
      * intros (l & Hl & Hin). right. split; [|by exists l].
        intros Hr. apply spliced_run_src in Hr as (l' & Hl' & Hin').
        destruct (wf_live σ Hwf B l J Hl Hin) as [r Hr].
        assert (ParentBB r = Some B) as Hp1
          by (apply (wf_parent σ Hwf J r B Hr); by exists l).
        assert (ParentBB r = Some L2) as Hp2
          by (apply (wf_parent σ Hwf J r L2 Hr); by exists l').
        congruence.
      * intros [[_ ->]|[_ Hl]]; done.
Qed.

Lemma NoDup_spliced B l : Blocks σ1 !! B = Some l → NoDup l.
Proof.
  simpl. destruct (decide (this = B)) as [<-|Hne].
  - rewrite lookup_insert_eq. intros [= <-]. apply NoDup_put.
    + destruct (decide (L2 = this)) as [<-|Hne].
      * rewrite lookup_insert_eq in Hdst. injection Hdst as <-.
        apply NoDup_rest; [by eapply wf_NoDup|done..].
      * rewrite lookup_insert_ne in Hdst by done. by eapply wf_NoDup.
    + apply NoDup_run; [by eapply wf_NoDup|done..].
    + intros x Hx Hd. by apply spliced_dst in Hd as [Hn _].
  - rewrite lookup_insert_ne by done.
    destruct (decide (L2 = B)) as [<-|Hne2].
    + rewrite lookup_insert_eq. intros [= <-].
      apply NoDup_rest; [by eapply wf_NoDup|done..].
    + rewrite lookup_insert_ne by done. apply Hwf.
Qed.

(** Whatever the callback did to the parent pointers, the store is
    consistent if the moved instructions point to [this] and the others
    are as before. *)
Lemma wf_spliced σ' :
  Blocks σ' = Blocks σ1 →
  ArenaNext σ' = ArenaNext σ →
  (∀ J, Insts σ' !! J =
        if decide (J ∈ run) then set_ParentBB (Some this) <$> Insts σ !! J
        else Insts σ !! J) →
  wf σ'.
Proof.
  intros HB HA HI.
  assert (∀ J B, linked σ' J B ↔ linked σ1 J B) as Hlink.
  { intros J B. unfold linked. by rewrite HB. }
  assert (∀ J, is_Some (Insts σ' !! J) ↔ is_Some (Insts σ !! J)) as Hsome.
  { intros J. rewrite HI. case_decide; [|done]. by rewrite fmap_is_Some. }
  split.
  - intros B l. rewrite HB. apply NoDup_spliced.
  - intros J r' B. rewrite Hlink, linked_spliced, HI. case_decide as Hr.
    + destruct (Insts σ !! J) as [r|] eqn:HJ; [|done]. simpl.
      intros [= <-]. simpl. split.
      * intros [= <-]. by left.
      * intros [[_ ->]|[Hn _]]; done.
    + intros HJ. rewrite (wf_parent σ Hwf J r' B HJ). split.
      * intros Hl. by right.
      * intros [[? _]|[_ ?]]; done.
  - intros B l J Hl Hin. apply Hsome.
    assert (linked σ1 J B) as Hl1 by (apply Hlink; by exists l).
    apply linked_spliced in Hl1 as [[Hr _]|[_ (l' & Hl' & Hin')]].
    + apply spliced_run_src in Hr as (l' & Hl' & Hin'). by eapply wf_live.
    + by eapply wf_live.
  - intros J HJ. rewrite HA. apply Hwf. by apply Hsome.
Qed.
End Spliced.

Lemma set_ParentBB_same r p : ParentBB r = p → set_ParentBB p r = r.
Proof. destruct r. simpl. by intros ->. Qed.

Lemma wf_iplist_splice this pos L2 first last σ u σ' :
  wf σ → iplist_splice this pos L2 first last σ = Ok (u, σ') → wf σ'.
Proof.
  intros Hwf (src & dst & Hsrc & H1 & H2 & Hdst & Hpos & Htr)%iplist_splice_Ok.
  assert (∀ I, I ∈ take (last - first) (drop first src) → is_Some (Insts σ !! I))
    as Hlive.
  { intros I HI. apply (wf_live σ Hwf L2 src I Hsrc). by eapply elem_of_run. }
  destruct (decide (this = L2)) as [->|Hne].
  - rewrite transferNodesFromList_same in Htr. destruct u. injection Htr as <-.
    eapply (wf_spliced L2 pos L2 first last σ src dst); try done.
    intros J. simpl. case_decide as HJ; [|done].
    destruct (Hlive J HJ) as [r Hr]. rewrite Hr. simpl. f_equal. symmetry.
    apply set_ParentBB_same, (wf_parent σ Hwf J r L2 Hr).
    exists src. split; [done|]. by eapply elem_of_run.
  - rewrite transfer_relinked in Htr by done. destruct u. injection Htr as <-.
    eapply (wf_spliced this pos L2 first last σ src dst); try done.
    + by rewrite with_parents_Blocks.
    + by rewrite with_parents_ArenaNext.
    + intros J. by rewrite with_parents_lookup.
Qed.

(** ** Construction touches only the object under construction *)

Lemma stays_refl this σ : stays this σ σ.
Proof. split; eauto. Qed.

Lemma stays_trans this σ1 σ2 σ3 : stays this σ1 σ2 → stays this σ2 σ3 → stays this σ1 σ3.
Proof.
  intros [B1 A1 F1 O1 P1] [B2 A2 F2 O2 P2]. split; try congruence.
  - intros J HJ. by rewrite O2, O1.
  - intros r Hr. destruct (P1 r Hr) as (r1 & Hr1 & Hp1).
    destruct (P2 r1 Hr1) as (r2 & Hr2 & Hp2). exists r2. split; congruence.
Qed.

Lemma built_stays this σ1 σ2 σ3 : built this σ1 σ2 → stays this σ2 σ3 → built this σ1 σ3.
Proof.
  intros [B1 A1 F1 O1 (r1 & Hr1 & Hp1)] [B2 A2 F2 O2 P2]. split; try congruence.
  - intros J HJ. by rewrite O2, O1.
  - destruct (P2 r1 Hr1) as (r2 & Hr2 & Hp2). exists r2. split; congruence.
Qed.

Lemma stays_add_Log this e σ : stays this σ (add_Log e σ).
Proof. split; eauto. Qed.

Lemma Instruction_ctor_Ok this kind loc tys σ u σ' :
  Instruction_ctor this kind loc tys σ = Ok (u, σ') ↔
  is_Some (Buffers σ !! this) ∧
  σ' = set_Insts (<[this := mkInstruction kind tys loc None NoMembers]>) σ.
Proof.
  unfold Instruction_ctor, bind, get, fail. destruct (Buffers σ !! this) as [n|].
  - rewrite modify_Ok. split; [by eauto|by intros [_ ->]].
  - split; [done|by intros [[? [=]] _]].
Qed.

Lemma Instruction_ctor_built this kind loc tys σ u σ' :
  Instruction_ctor this kind loc tys σ = Ok (u, σ') → built this σ σ'.
Proof.
  intros [_ ->]%Instruction_ctor_Ok. split; simpl; try done.
  - intros J HJ. by rewrite lookup_insert_ne.
  - eexists. by rewrite lookup_insert_eq.
Qed.

Lemma write_Fields_Ok this m σ u σ' :
  write_Fields this m σ = Ok (u, σ') ↔
  is_Some (Insts σ !! this) ∧ σ' = set_Insts (alter (set_Fields m) this) σ.
Proof.
  unfold write_Fields. rewrite bind_Ok. split.
  - intros (r & σ1 & [Hr ->]%deref_Ok & ->%modify_Ok). eauto.
  - intros [[r Hr] ->]. exists r, σ. by rewrite deref_Ok, modify_Ok.
Qed.

Lemma write_Fields_stays this m σ u σ' :
  write_Fields this m σ = Ok (u, σ') → stays this σ σ'.
Proof.
  intros [_ ->]%write_Fields_Ok. split; simpl; try done.
  - intros J HJ. by rewrite lookup_alter_ne.
  - intros r Hr. exists (set_Fields m r). by rewrite lookup_alter_eq, Hr.
Qed.

Lemma trailing_capacity_pure this h e σ c σ' :
  trailing_capacity this h e σ = Ok (c, σ') → σ' = σ.
Proof.
  unfold trailing_capacity, bind, get, ret, fail.
  destruct (Buffers σ !! this); [|done]. case_bool_decide; [|done]. by intros [= _ ->].
Qed.

Lemma memcpy_pure {E} (dst : list (option E)) src b e σ x σ' :
  memcpy dst src b e σ = Ok (x, σ') → σ' = σ.
Proof.
  unfold memcpy, ret, fail. destruct (memcpy_loop _ _ _ _); [|done]. by intros [= _ ->].
Qed.

Lemma Value_getType_pure V σ t σ' : Value_getType V σ = Ok (t, σ') → σ' = σ.
Proof.
  unfold Value_getType. intros (r & σ1 & [Hr ->]%deref_Ok & H)%bind_Ok.
  destruct (Types r !! ResultNumber V); [|done]. by injection H as _ ->.
Qed.

Lemma castTo_FunctionType_pure t σ x σ' : castTo_FunctionType t σ = Ok (x, σ') → σ' = σ.
Proof. destruct t; try done. by intros [= _ ->]. Qed.

Lemma DestBBs_init_stays this slot CI σ u σ' :
  DestBBs_init this slot CI σ = Ok (u, σ') → stays this σ σ'.
Proof.
  unfold DestBBs_init. intros (r & σ1 & [Hr ->]%deref_Ok & H)%bind_Ok.
  destruct (Fields r); try done. destruct slot as [|[|slot]]; [| |done].
  all: apply bind_Ok in H as (? & σ2 & Hw%write_Fields_stays & ->%modify_Ok).
  all: eapply stays_trans; [done|apply stays_add_Log].
Qed.

Lemma DestBBs_assign_stays this slot BB σ u σ' :
  DestBBs_assign this slot BB σ = Ok (u, σ') → stays this σ σ'.
Proof.
  unfold DestBBs_assign. intros (r & σ1 & [Hr ->]%deref_Ok & H)%bind_Ok.
  destruct (Fields r); try done. destruct slot as [|[|slot]]; [| |done].
  all: destruct (Successor_assign _ BB); [|done].
  all: apply bind_Ok in H as (? & σ2 & Hw%write_Fields_stays & ->%modify_Ok).
  all: eapply stays_trans; [done|apply stays_add_Log].
Qed.

(** Splitting a constructor that returned into its steps; the steps that
    only read leave the store as it is. *)
Ltac split_ctor :=
  repeat match goal with
    | H : bind _ _ _ = Ok _ |- _ =>
        let a := fresh "a" in let σ := fresh "σ" in let Hs := fresh "Hs" in
        apply bind_Ok in H as (a & σ & Hs & H)
    | H : trailing_capacity _ _ _ _ = Ok _ |- _ => apply trailing_capacity_pure in H; subst
    | H : memcpy _ _ _ _ _ = Ok _ |- _ => apply memcpy_pure in H; subst
    | H : Value_getType _ _ = Ok _ |- _ => apply Value_getType_pure in H; subst
    | H : castTo_FunctionType _ _ = Ok _ |- _ => apply castTo_FunctionType_pure in H; subst
    | H : Instruction_ctor _ _ _ _ _ = Ok _ |- _ => apply Instruction_ctor_built in H
    | H : write_Fields _ _ _ = Ok _ |- _ => apply write_Fields_stays in H
    | H : DestBBs_init _ _ _ _ = Ok _ |- _ => apply DestBBs_init_stays in H
    | H : DestBBs_assign _ _ _ _ = Ok _ |- _ => apply DestBBs_assign_stays in H
    end.

Ltac chain_built :=
  repeat match goal with
    | H1 : built ?t ?s1 ?s2, H2 : stays ?t ?s2 ?s3 |- _ =>
        pose proof (built_stays t s1 s2 s3 H1 H2); clear H1 H2
    end; try assumption.

Lemma FunctionInst_ctor_built ly this kind loc ty Callee Args σ u σ' :
  FunctionInst_ctor ly this kind loc ty Callee Args σ = Ok (u, σ') → built this σ σ'.
Proof. unfold FunctionInst_ctor. intros H. split_ctor. chain_built. Qed.

Lemma ApplyInst_ctor_built ly this loc Callee Args σ u σ' :
  ApplyInst_ctor ly this loc Callee Args σ = Ok (u, σ') → built this σ σ'.
Proof.
  unfold ApplyInst_ctor. intros H.
  apply bind_Ok in H as (t & σ1 & ->%Value_getType_pure & H).
  apply bind_Ok in H as (ft & σ2 & ->%castTo_FunctionType_pure & H).
  by eapply FunctionInst_ctor_built.
Qed.

Lemma ClosureInst_ctor_built ly this loc Callee Args σ u σ' :
  ClosureInst_ctor ly this loc Callee Args σ = Ok (u, σ') → built this σ σ'.
Proof.
  unfold ClosureInst_ctor. intros H.
  apply bind_Ok in H as (t & σ1 & ->%Value_getType_pure & H).
  by eapply FunctionInst_ctor_built.
Qed.

Lemma SpecializeInst_ctor_built ly this loc Operand Substitutions DestTy σ u σ' :
  SpecializeInst_ctor ly this loc Operand Substitutions DestTy σ = Ok (u, σ') →
  built this σ σ'.
Proof. unfold SpecializeInst_ctor. intros H. split_ctor. chain_built. Qed.

Lemma TupleInst_ctor_built ly this loc ty Elems σ u σ' :
  TupleInst_ctor ly this loc ty Elems σ = Ok (u, σ') → built this σ σ'.
Proof. unfold TupleInst_ctor. intros H. split_ctor. chain_built. Qed.

Lemma UnreachableInst_ctor_built this σ u σ' :
  UnreachableInst_ctor this σ = Ok (u, σ') → built this σ σ'.
Proof. apply Instruction_ctor_built. Qed.

Lemma ReturnInst_ctor_built this loc ReturnValue σ u σ' :
  ReturnInst_ctor this loc ReturnValue σ = Ok (u, σ') → built this σ σ'.
Proof. unfold ReturnInst_ctor, TermInst_ctor. intros H. split_ctor. chain_built. Qed.

Lemma BranchInst_ctor_built this DestBB σ u σ' :
  BranchInst_ctor this DestBB σ = Ok (u, σ') → built this σ σ'.
Proof.
  unfold BranchInst_ctor, TermInst_ctor. intros H.
  destruct (Successor_ctor this DestBB); split_ctor; [chain_built|done].
Qed.

Lemma CondBranchInst_ctor_built this loc Condition TrueBB FalseBB σ u σ' :
  CondBranchInst_ctor this loc Condition TrueBB FalseBB σ = Ok (u, σ') →
  built this σ σ'.
Proof. unfold CondBranchInst_ctor, TermInst_ctor. intros H. split_ctor. chain_built. Qed.

(** ** Allocation *)

Lemma round_up_ge (n a : N) : a ≠ 0 → n ≤ (n + a - 1) / a * a.
Proof.
  intros Ha.
  pose proof (N.div_mod (n + a - 1) a Ha) as Hdiv.
  pose proof (N.mod_lt (n + a - 1) a Ha) as Hmod.
  nia.
Qed.

Lemma allocate_Ok Size Align σ Buffer σ' :
  allocate Size Align σ = Ok (Buffer, σ') ↔
  Align ≠ 0 ∧ Buffer = (ArenaNext σ + Align - 1) / Align * Align ∧
  σ' = allocated Buffer Size σ.
Proof.
  unfold allocate. case_bool_decide as Ha.
  - split; [done|]. by intros [? _].
  - unfold bind, get, modify, ret. split.
    + by intros [= <- <-].
    + by intros (_ & -> & ->).
Qed.

Lemma wf_built this Size σ σ' :
  wf σ → ArenaNext σ ≤ this → 0 < Size →
  built this (allocated this Size σ) σ' → wf σ'.
Proof.
  intros Hwf Hge Hsize [HB HA HF HO (r' & Hr' & Hp')]. simpl in *.
  assert (Insts σ !! this = None) as Hnone.
  { destruct (Insts σ !! this) as [r|] eqn:Hr; [|done].
    assert (this < ArenaNext σ) by (apply Hwf; eauto). lia. }
  assert (∀ B, ¬ linked σ this B) as Hunl.
  { intros B (l & Hl & Hin).
    destruct (wf_live σ Hwf B l this Hl Hin) as [r Hr]. congruence. }
  assert (∀ J B, linked σ' J B ↔ linked σ J B) as Hlink.
  { intros J B. unfold linked. by rewrite HB. }
  split.
  - intros B l. rewrite HB. apply Hwf.
  - intros J r B HJ. rewrite Hlink. destruct (decide (J = this)) as [->|Hne].
    + assert (r = r') as -> by congruence. rewrite Hp'. split; [done|].
      intros Hl. by apply Hunl in Hl.
    + rewrite HO in HJ by done. by apply Hwf.
  - intros B l J Hl Hin. rewrite HB in Hl.
    destruct (decide (J = this)) as [->|Hne]; [by eauto|].
    rewrite HO by done. by eapply wf_live.
  - intros J HJ. rewrite HA. destruct (decide (J = this)) as [->|Hne]; [lia|].
    rewrite HO in HJ by done. apply Hwf in HJ. lia.
Qed.

Lemma wf_operator_new Size Align ctor σ this σ' :
  wf σ → 0 < Size →
  (∀ this σ u σ', ctor this σ = Ok (u, σ') → built this σ σ') →
  operator_new Size Align ctor σ = Ok (this, σ') → wf σ'.
Proof.
  intros Hwf Hsize Hctor H. unfold operator_new in H.
  apply bind_Ok in H as (Buffer & σ1 & (Ha & HB & ->)%allocate_Ok & H).
  apply bind_Ok in H as (u & σ2 & Hc & [= <- <-]).
  apply Hctor in Hc. eapply (wf_built Buffer Size σ); try done.
  subst Buffer. by apply round_up_ge.
Qed.

Lemma wf_run ly op σ σ' :
  Layout_ok ly → wf σ → run ly op σ = Ok (tt, σ') → wf σ'.
Proof.
  intros (Hsize & Halign & Hval & Hsub) Hwf H.
  assert (∀ k n e, 0 < sizeofInst ly k + n * e) as Hpos.
  { intros k n e. specialize (Hsize k). lia. }
  destruct op; simpl in H.
  - by eapply wf_BasicBlock_ctor.
  - by eapply wf_iplist_insert.
  - by eapply wf_removeFromParent.
  - by eapply wf_eraseFromParent.
  - by eapply wf_iplist_splice.
  - apply bind_Ok in H as (this & σ1 & H & [= <-]).
    eapply wf_operator_new; [done|apply Hpos| |exact H].
    intros ????. apply ApplyInst_ctor_built.
  - apply bind_Ok in H as (this & σ1 & H & [= <-]).
    eapply wf_operator_new; [done|apply Hpos| |exact H].
    intros ????. apply ClosureInst_ctor_built.
  - apply bind_Ok in H as (this & σ1 & H & [= <-]).
    eapply wf_operator_new; [done|apply Hpos| |exact H].
    intros ????. apply SpecializeInst_ctor_built.
  - apply bind_Ok in H as (this & σ1 & H & [= <-]).
    eapply wf_operator_new; [done|apply Hpos| |exact H].
    intros ????. apply TupleInst_ctor_built.
  - apply bind_Ok in H as (this & σ1 & H & [= <-]).
    eapply wf_operator_new; [done|apply Hsize| |exact H].
    intros ????. apply Instruction_ctor_built.
  - apply bind_Ok in H as (this & σ1 & H & [= <-]).
    eapply wf_operator_new; [done|apply Hsize| |exact H].
    intros ????. apply Instruction_ctor_built.
  - apply bind_Ok in H as (this & σ1 & H & [= <-]).
    eapply wf_operator_new; [done|apply Hsize| |exact H].
    intros ????. apply UnreachableInst_ctor_built.
  - apply bind_Ok in H as (this & σ1 & H & [= <-]).
    eapply wf_operator_new; [done|apply Hsize| |exact H].
    intros ????. apply ReturnInst_ctor_built.
  - apply bind_Ok in H as (this & σ1 & H & [= <-]).
    eapply wf_operator_new; [done|apply Hsize| |exact H].
    intros ????. apply BranchInst_ctor_built.
  - apply bind_Ok in H as (this & σ1 & H & [= <-]).
    eapply wf_operator_new; [done|apply Hsize| |exact H].
    intros ????. apply CondBranchInst_ctor_built.
Qed.

Lemma wf_reachable ly σ : Layout_ok ly → reachable ly σ → wf σ.
Proof.
  intros Hly Hreach. induction Hreach as [|σ op σ' _ IH Hrun].
  - apply wf_initial.
  - by eapply wf_run.
Qed.

Lemma run_all_reachable ly ops σ σ' :
  reachable ly σ → run_all ly ops σ = Ok (tt, σ') → reachable ly σ'.
Proof.
  revert σ. induction ops as [|op ops IH]; intros σ Hreach H; simpl in H.
  - by injection H as <-.
  - apply bind_Ok in H as ([] & σ1 & Hop & H).
    eapply IH; [|exact H]. by eapply reachable_step.
Qed.

(** ** Parent consistency *)

Lemma removeFromParent_eq I σ r B l :
  Insts σ !! I = Some r → ParentBB r = Some B →
  Blocks σ !! B = Some l → I ∈ l →
  removeFromParent I σ = Ok (tt, removed B I l σ) ∧
  iplist_remove B I σ = Ok (tt, removed B I l σ).
Proof.
  intros Hr Hp Hl Hin.
  assert (iplist_remove B I σ = Ok (tt, removed B I l σ)) as Hrem.
  { apply iplist_remove_Ok. exists r, l. by rewrite Hp. }
  split; [|done]. unfold removeFromParent.
  rewrite (bind_eq _ _ _ B σ); [done|]. apply getParent_Ok. by exists r.
Qed.

Lemma eraseFromParent_eq I σ r B l :
  Insts σ !! I = Some r → ParentBB r = Some B →
  Blocks σ !! B = Some l → I ∈ l →
  eraseFromParent I σ = Ok (tt, set_Insts (delete I) (removed B I l σ)).
Proof.
  intros Hr Hp Hl Hin. unfold eraseFromParent.
  rewrite (bind_eq _ _ _ B σ) by (apply getParent_Ok; by exists r).
  apply iplist_erase_Ok. exists r, l. by rewrite Hp.
Qed.

Lemma removed_lookup B I l σ r :
  Insts σ !! I = Some r →
  Insts (removed B I l σ) !! I = Some (set_ParentBB None r).
Proof.
  intros Hr. change (Insts (removed B I l σ)) with (Insts (with_parent I None σ)).
  by rewrite with_parent_lookup, decide_True, Hr.
Qed.

Lemma removed_lookup_ne B I l σ J :
  J ≠ I → Insts (removed B I l σ) !! J = Insts σ !! J.
Proof.
  intros Hne. change (Insts (removed B I l σ)) with (Insts (with_parent I None σ)).
  by rewrite with_parent_lookup, decide_False.
Qed.

(** C2: in every state a client can reach, an instruction with a null
    parent can be inserted into any block at any position of its list, and
    its parent pointer is then that block; an instruction with parent [B] can
    be removed, by [removeFromParent] and by the list's [remove] alike, and
    its parent pointer is then null; and the parent pointer of a live
    instruction is set exactly when the instruction is linked into the list
    of some block. *)
Theorem parent_consistency (ly : Layout) (σ : State) (I : InstId) (r : Instruction) :
  Layout_ok ly → reachable ly σ → Insts σ !! I = Some r →
  (∀ B l pos, ParentBB r = None → Blocks σ !! B = Some l → (pos ≤ length l)%nat →
     ∃ σ', iplist_insert B pos I σ = Ok (tt, σ') ∧ parent_of σ' I = Some B) ∧
  (∀ B, ParentBB r = Some B →
     ∃ σ', removeFromParent I σ = Ok (tt, σ') ∧
           iplist_remove B I σ = Ok (tt, σ') ∧
           ∃ r', Insts σ' !! I = Some r' ∧ ParentBB r' = None) ∧
  (ParentBB r ≠ None ↔ ∃ B, linked σ I B).
Proof.
  intros Hly Hreach Hr. pose proof (wf_reachable ly σ Hly Hreach) as Hwf.
  split; [|split].
  - intros B l pos Hp Hl Hpos. exists (inserted B pos I l σ). split.
    + apply iplist_insert_Ok. by exists r, l.
    + unfold parent_of.
      change (Insts (inserted B pos I l σ)) with (Insts (with_parent I (Some B) σ)).
      by rewrite with_parent_lookup, decide_True, Hr.
  - intros B Hp.
    destruct (proj1 (wf_parent σ Hwf I r B Hr) Hp) as (l & Hl & Hin).
    destruct (removeFromParent_eq I σ r B l Hr Hp Hl Hin) as [H1 H2].
    exists (removed B I l σ). split; [done|]. split; [done|].
    exists (set_ParentBB None r). split; [by apply removed_lookup|done].
  - split.
    + intros Hp. destruct (ParentBB r) as [B|] eqn:HB; [|done].
      exists B. by apply (wf_parent σ Hwf I r B Hr).
    + intros [B Hl]. apply (wf_parent σ Hwf I r B Hr) in Hl. congruence.
Qed.

(** C8: for an instruction linked into block [B], [removeFromParent]
    returns and leaves the instruction in the store with its kind, types,
    location and members as they were and a null parent, while
    [eraseFromParent] returns and leaves no object at its address; after
    either, the list of [B] is the old one without the instruction, no list
    of any block holds it, and the other instructions are untouched. *)
Theorem remove_keeps_erase_destroys (σ : State) (I : InstId) (r : Instruction)
    (B : BlockId) (l : list InstId) :
  wf σ → Insts σ !! I = Some r → ParentBB r = Some B → Blocks σ !! B = Some l →
  (∃ σ', removeFromParent I σ = Ok (tt, σ') ∧
         Insts σ' !! I = Some (set_ParentBB None r) ∧
         Blocks σ' !! B = Some (filter (λ x, x ≠ I) l) ∧
         (∀ B' l', Blocks σ' !! B' = Some l' → I ∉ l') ∧
         (∀ J, J ≠ I → Insts σ' !! J = Insts σ !! J)) ∧
  (∃ σ', eraseFromParent I σ = Ok (tt, σ') ∧
         Insts σ' !! I = None ∧
         Blocks σ' !! B = Some (filter (λ x, x ≠ I) l) ∧
         (∀ B' l', Blocks σ' !! B' = Some l' → I ∉ l') ∧
         (∀ J, J ≠ I → Insts σ' !! J = Insts σ !! J)).
Proof.
  intros Hwf Hr Hp Hl.
  assert (I ∈ l) as Hin.
  { destruct (proj1 (wf_parent σ Hwf I r B Hr) Hp) as (l' & Hl' & Hin). congruence. }
  assert (∀ B' l', Blocks (removed B I l σ) !! B' = Some l' → I ∉ l') as Hgone.
  { intros B' l' Hl' Hin'.
    assert (linked (removed B I l σ) I B') as Hlink by (by exists l').
    apply (linked_removed B I l σ I B' Hl) in Hlink as [Hlink Hn].
    apply (wf_parent σ Hwf I r B' Hr) in Hlink. apply Hn. split; congruence. }
  split.
  - exists (removed B I l σ).
    split; [by eapply removeFromParent_eq|].
    split; [by apply removed_lookup|].
    split; [apply lookup_insert_eq|].
    split; [done|]. intros J HJ. by apply removed_lookup_ne.
  - exists (set_Insts (delete I) (removed B I l σ)).
    split; [by eapply eraseFromParent_eq|]. simpl.
    split; [apply lookup_delete_eq|].
    split; [apply lookup_insert_eq|].
    split; [done|]. intros J HJ.
    rewrite lookup_delete_ne by done.
    rewrite lookup_alter_ne by done. done.
Qed.

(** ** Running a constructor forward *)

Lemma obj_lookup this r es σ : Insts (obj this r es σ) !! this = Some r.
Proof. apply lookup_insert_eq. Qed.

Lemma deref_obj this r es σ : deref this (obj this r es σ) = Ok (r, obj this r es σ).
Proof. apply deref_eq, obj_lookup. Qed.

Lemma Instruction_ctor_eq this kind loc tys σ :
  is_Some (Buffers σ !! this) →
  Instruction_ctor this kind loc tys σ =
  Ok (tt, obj this (mkInstruction kind tys loc None NoMembers) [] σ).
Proof.
  intros [n Hn]. unfold Instruction_ctor, bind, get. simpl. by rewrite Hn.
Qed.

Lemma write_Fields_obj this m r es σ :
  write_Fields this m (obj this r es σ) = Ok (tt, obj this (set_Fields m r) es σ).
Proof.
  unfold write_Fields. rewrite (bind_eq _ _ _ _ _ (deref_obj _ _ _ _)).
  unfold modify, set_Insts, obj. simpl.
  by rewrite alter_insert_eq.
Qed.

Lemma DestBBs_init_obj this slot CI r es σ c s0 s1 :
  Fields r = CondBranchInstMembers c s0 s1 → (slot < 2)%nat →
  DestBBs_init this slot CI (obj this r es σ) =
  Ok (tt, obj this
            (set_Fields (if slot is O
                         then CondBranchInstMembers c (Successor_init s0 CI) s1
                         else CondBranchInstMembers c s0 (Successor_init s1 CI)) r)
            (EvSuccInit CI slot :: es) σ).
Proof.
  intros HF Hslot. unfold DestBBs_init.
  rewrite (bind_eq _ _ _ _ _ (deref_obj _ _ _ _)). rewrite HF.
  destruct slot as [|[|slot]]; [| |lia].
  all: by rewrite (bind_eq _ _ _ _ _ (write_Fields_obj _ _ _ _ _)).
Qed.

Lemma DestBBs_assign_obj this slot BB r es σ c s0 s1 CI0 CI1 :
  Fields r = CondBranchInstMembers c s0 s1 → (slot < 2)%nat →
  ContainingInst s0 = Some CI0 → ContainingInst s1 = Some CI1 →
  DestBBs_assign this slot BB (obj this r es σ) =
  Ok (tt, obj this
            (set_Fields (if slot is O
                         then CondBranchInstMembers c (mkSuccessor (Some CI0) (Some BB)) s1
                         else CondBranchInstMembers c s0 (mkSuccessor (Some CI1) (Some BB))) r)
            (EvSuccAssign this slot BB :: es) σ).
Proof.
  intros HF Hslot H0 H1. unfold DestBBs_assign.
  rewrite (bind_eq _ _ _ _ _ (deref_obj _ _ _ _)). rewrite HF.
  destruct slot as [|[|slot]]; [| |lia]; unfold Successor_assign.
  - rewrite H0. by rewrite (bind_eq _ _ _ _ _ (write_Fields_obj _ _ _ _ _)).
  - rewrite H1. by rewrite (bind_eq _ _ _ _ _ (write_Fields_obj _ _ _ _ _)).
Qed.

Lemma CondBranchInst_ctor_eq this loc Condition TrueBB FalseBB σ :
  is_Some (Buffers σ !! this) →
  CondBranchInst_ctor this loc Condition TrueBB FalseBB σ =
  Ok (tt, obj this (CondBranchInst_built this loc Condition TrueBB FalseBB)
            [EvSuccAssign this 1 FalseBB; EvSuccAssign this 0 TrueBB;
             EvSuccInit this 1; EvSuccInit this 0] σ).
Proof.
  intros Hbuf. unfold CondBranchInst_ctor, TermInst_ctor.
  rewrite (bind_eq _ _ _ _ _ (Instruction_ctor_eq _ _ _ _ _ Hbuf)).
  rewrite (bind_eq _ _ _ _ _ (write_Fields_obj _ _ _ _ _)).
  erewrite bind_eq; [|by eapply (DestBBs_init_obj this 0); [|lia]].
  erewrite bind_eq; [|by eapply (DestBBs_init_obj this 1); [|lia]].
  erewrite bind_eq; [|by eapply (DestBBs_assign_obj this 0); [|lia|..]].
  by erewrite (DestBBs_assign_obj this 1); [|done|lia|..].
Qed.

Lemma BranchInst_ctor_eq this DestBB σ :
  is_Some (Buffers σ !! this) →
  BranchInst_ctor this DestBB σ =
  Ok (tt, obj this (mkInstruction BranchInst [TheEmptyTupleType] LocNone None
                      (BranchInstMembers (mkSuccessor (Some this) (Some DestBB))))
            [] σ).
Proof.
  intros Hbuf. unfold BranchInst_ctor, TermInst_ctor.
  rewrite (bind_eq _ _ _ _ _ (Instruction_ctor_eq _ _ _ _ _ Hbuf)).
  simpl. by rewrite write_Fields_obj.
Qed.

Lemma ReturnInst_ctor_eq this loc ReturnValue σ :
  is_Some (Buffers σ !! this) →
  ReturnInst_ctor this loc ReturnValue σ =
  Ok (tt, obj this (mkInstruction ReturnInst [] loc None
                      (ReturnInstMembers ReturnValue)) [] σ).
Proof.
  intros Hbuf. unfold ReturnInst_ctor, TermInst_ctor.
  rewrite (bind_eq _ _ _ _ _ (Instruction_ctor_eq _ _ _ _ _ Hbuf)).
  by rewrite write_Fields_obj.
Qed.

Lemma UnreachableInst_ctor_eq this σ :
  is_Some (Buffers σ !! this) →
  UnreachableInst_ctor this σ =
  Ok (tt, obj this (mkInstruction UnreachableInst [TheEmptyTupleType] LocNone None
                      NoMembers) [] σ).
Proof. intros Hbuf. by apply Instruction_ctor_eq. Qed.

(** ** The successor accessor *)

Lemma getSuccessors_dispatch this σ r :
  Insts σ !! this = Some r →
  getSuccessors this σ =
  match successors_by_kind (Kind r) with
  | Some accessor => accessor r σ
  | None => Fail (AssertionFailure "cast<Ty>() argument of incompatible type!")
  end.
Proof.
  intros Hr. unfold getSuccessors.
  rewrite (bind_eq _ _ _ _ _ (deref_eq _ _ _ Hr)).
  unfold isa_TermInst, classof, cast.
  destruct r as [k tys loc p m]. simpl. by destruct k.
Qed.

Lemma getSuccessors_obj this r es σ :
  getSuccessors this (obj this r es σ) =
  match successors_by_kind (Kind r) with
  | Some accessor => accessor r (obj this r es σ)
  | None => Fail (AssertionFailure "cast<Ty>() argument of incompatible type!")
  end.
Proof. apply getSuccessors_dispatch, obj_lookup. Qed.

(** C4: built by its constructor in a buffer of the arena, a branch reports
    exactly one successor, whose target is the destination; a conditional
    branch exactly two, the true target first and the false target second;
    unreachable and return report none. *)
Theorem successors_by_variant (this : InstId) (σ : State) :
  is_Some (Buffers σ !! this) →
  (∀ DestBB, ∃ σ' s,
     BranchInst_ctor this DestBB σ = Ok (tt, σ') ∧
     getSuccessors this σ' = Ok ([s], σ') ∧
     targets [s] = [Some DestBB]) ∧
  (∀ loc Condition TrueBB FalseBB, ∃ σ' s0 s1,
     CondBranchInst_ctor this loc Condition TrueBB FalseBB σ = Ok (tt, σ') ∧
     getSuccessors this σ' = Ok ([s0; s1], σ') ∧
     targets [s0; s1] = [Some TrueBB; Some FalseBB]) ∧
  (∃ σ', UnreachableInst_ctor this σ = Ok (tt, σ') ∧
         getSuccessors this σ' = Ok ([], σ')) ∧
  (∀ loc ReturnValue, ∃ σ',
     ReturnInst_ctor this loc ReturnValue σ = Ok (tt, σ') ∧
     getSuccessors this σ' = Ok ([], σ')).
Proof.
  intros Hbuf. split; [|split; [|split]].
  - intros DestBB. eexists _, _. split; [by apply BranchInst_ctor_eq|].
    by rewrite getSuccessors_obj.
  - intros loc Condition TrueBB FalseBB. eexists _, _, _.
    split; [by apply CondBranchInst_ctor_eq|]. by rewrite getSuccessors_obj.
  - eexists. split; [by apply UnreachableInst_ctor_eq|]. by rewrite getSuccessors_obj.
  - intros loc ReturnValue. eexists. split; [by apply ReturnInst_ctor_eq|].
    by rewrite getSuccessors_obj.
Qed.

(** C5: on an instruction that is not a terminator the successor accessor
    stops in a failed assertion: the one of the checked cast to the last
    terminator class, the classification the object fails, since the
    assertion on entry holds of every object and never fires.  On a
    terminator the kind is one of unreachable, return, conditional branch
    and branch, and no assertion fails.  In every case the accessor is the
    entry of the closed per-kind mapping at the instruction's kind. *)
Theorem getSuccessors_contract (this : InstId) (σ : State) (r : Instruction) :
  Insts σ !! this = Some r →
  (TermInst_classof r = false →
     getSuccessors this σ =
     Fail (AssertionFailure "cast<Ty>() argument of incompatible type!")) ∧
  (TermInst_classof r = true →
     (Kind r = UnreachableInst ∨ Kind r = ReturnInst ∨
      Kind r = CondBranchInst ∨ Kind r = BranchInst) ∧
     ∀ msg, getSuccessors this σ ≠ Fail (AssertionFailure msg)) ∧
  getSuccessors this σ ≠ Fail (AssertionFailure "Only TermInst's are allowed") ∧
  getSuccessors this σ =
    match successors_by_kind (Kind r) with
    | Some accessor => accessor r σ
    | None => Fail (AssertionFailure "cast<Ty>() argument of incompatible type!")
    end.
Proof.
  intros Hr. rewrite (getSuccessors_dispatch this σ r Hr).
  assert (TermInst_classof r = true →
          (Kind r = UnreachableInst ∨ Kind r = ReturnInst ∨
           Kind r = CondBranchInst ∨ Kind r = BranchInst) ∧
          ∀ msg, match successors_by_kind (Kind r) with
                 | Some accessor => accessor r σ
                 | None => Fail (AssertionFailure
                                   "cast<Ty>() argument of incompatible type!")
                 end ≠ Fail (AssertionFailure msg)) as Hterm.
  { unfold TermInst_classof. intros Ht.
    destruct r as [k tys loc p m]. simpl in *.
    destruct k; try discriminate Ht; simpl.
    all: split; [by eauto|]; intros msg.
    all: unfold UnreachableInst_getSuccessors, ReturnInst_getSuccessors,
           BranchInst_getSuccessors, CondBranchInst_getSuccessors; simpl.
    all: by destruct m. }
  assert (TermInst_classof r = false →
          match successors_by_kind (Kind r) with
          | Some accessor => accessor r σ
          | None => Fail (AssertionFailure
                            "cast<Ty>() argument of incompatible type!")
          end = Fail (AssertionFailure "cast<Ty>() argument of incompatible type!"))
    as Hnot.
  { unfold TermInst_classof. by destruct (Kind r). }
  split; [done|]. split; [done|]. split; [|done].
  destruct (TermInst_classof r) eqn:Ht.
  - by apply Hterm.
  - rewrite Hnot by done. discriminate.
Qed.

(** C9: the constructor of a conditional branch returns, and its steps are,
    in this order, the initialisation of slot 0, the initialisation of slot
    1, the assignment of the true target to slot 0 and the assignment of the
    false target to slot 1, each logged as a step of its own; between the
    initialisations and the assignments both slots know the owning
    instruction and have no target yet. *)
Theorem CondBranchInst_init_then_assign (this : InstId) (loc : SILLocation)
    (Condition : Value) (TrueBB FalseBB : BlockId) (σ : State) :
  is_Some (Buffers σ !! this) →
  ∃ σ2 σ',
    CondBranchInst_ctor this loc Condition TrueBB FalseBB σ = Ok (tt, σ') ∧
    Log σ' = [EvSuccAssign this 1 FalseBB; EvSuccAssign this 0 TrueBB;
              EvSuccInit this 1; EvSuccInit this 0] ++ Log σ ∧
    Insts σ' !! this = Some (CondBranchInst_built this loc Condition TrueBB FalseBB) ∧
    (TermInst_ctor this CondBranchInst loc [] ;;
     write_Fields this
       (CondBranchInstMembers Condition Successor_default Successor_default) ;;
     DestBBs_init this 0 this ;;
     DestBBs_init this 1 this) σ = Ok (tt, σ2) ∧
    (Fields <$> Insts σ2 !! this) =
      Some (CondBranchInstMembers Condition (mkSuccessor (Some this) None)
                                  (mkSuccessor (Some this) None)) ∧
    (DestBBs_assign this 0 TrueBB ;; DestBBs_assign this 1 FalseBB) σ2 = Ok (tt, σ').
Proof.
  intros Hbuf. eexists _, _.
  split; [by apply CondBranchInst_ctor_eq|].
  split; [done|]. split; [apply obj_lookup|].
  split.
  { unfold TermInst_ctor.
    rewrite (bind_eq _ _ _ _ _ (Instruction_ctor_eq _ _ _ _ _ Hbuf)).
    rewrite (bind_eq _ _ _ _ _ (write_Fields_obj _ _ _ _ _)).
    erewrite bind_eq; [|by eapply (DestBBs_init_obj this 0); [|lia]].
    by erewrite (DestBBs_init_obj this 1); [|done|lia]. }
  split; [by rewrite obj_lookup|].
  erewrite bind_eq; [|by eapply (DestBBs_assign_obj this 0); [|lia|..]].
  by erewrite (DestBBs_assign_obj this 1); [|done|lia|..].
Qed.

(** ** Variable-length records *)

Lemma memcpy_loop_eq {E} (src : list E) n k (dst : list (option E)) :
  (k + n ≤ length src)%nat → (k + n ≤ length dst)%nat →
  memcpy_loop dst src k n =
  Ok (take k dst ++ (Some <$> take n (drop k src)) ++ drop (k + n) dst).
Proof.
  revert k dst. induction n as [|n IH]; intros k dst Hsrc Hdst; simpl.
  - rewrite Nat.add_0_r. by rewrite take_drop.
  - destruct (lookup_lt_is_Some_2 src k) as [x Hx]; [lia|]. rewrite Hx.
    rewrite bool_decide_eq_true_2 by lia.
    rewrite IH by (rewrite ?length_insert; lia). f_equal.
    rewrite (take_S_r (<[k:=Some x]> dst) k (Some x))
      by (apply list_lookup_insert_eq; lia).
    rewrite take_insert_ge by lia.
    rewrite drop_insert_lt by lia.
    rewrite (drop_S src x k Hx). simpl.
    rewrite <- app_assoc. simpl.
    by replace (S (k + n)) with (k + S n)%nat by lia.
Qed.

Lemma memcpy_whole {E} (src : list E) (esize : N) σ :
  0 < esize →
  memcpy (replicate (length src) None) src (N.of_nat (length src) * esize) esize σ =
  Ok (Some <$> src, σ).
Proof.
  intros Hpos. unfold memcpy.
  rewrite N.div_mul by lia. rewrite Nat2N.id.
  rewrite memcpy_loop_eq by (rewrite ?length_replicate; lia).
  rewrite take_0, drop_0, take_ge by done. simpl.
  rewrite drop_ge by (rewrite length_replicate; lia).
  by rewrite app_nil_r.
Qed.

Lemma trailing_capacity_eq this header esize n r es σ :
  0 < esize →
  Buffers σ !! this = Some (header + N.of_nat n * esize) →
  trailing_capacity this header esize (obj this r es σ) = Ok (n, obj this r es σ).
Proof.
  intros Hpos Hbuf. unfold trailing_capacity, bind, get. simpl. rewrite Hbuf.
  rewrite bool_decide_eq_true_2 by lia. unfold ret. do 2 f_equal.
  replace (header + N.of_nat n * esize - header) with (N.of_nat n * esize) by lia.
  rewrite N.div_mul by lia. apply Nat2N.id.
Qed.

Lemma FunctionInst_ctor_eq ly this kind loc ty Callee Args σ :
  0 < sizeofValue ly →
  Buffers σ !! this = Some (sizeofInst ly kind + N.of_nat (length Args) * sizeofValue ly) →
  FunctionInst_ctor ly this kind loc ty Callee Args σ =
  Ok (tt, obj this (mkInstruction kind [ty] loc None
                      (FunctionInstMembers Callee (length Args) (Some <$> Args))) [] σ).
Proof.
  intros Hpos Hbuf. unfold FunctionInst_ctor.
  rewrite (bind_eq _ _ _ _ _ (Instruction_ctor_eq _ _ _ _ _ (mk_is_Some _ _ Hbuf))).
  rewrite (bind_eq _ _ _ _ _ (trailing_capacity_eq _ _ _ _ _ _ _ Hpos Hbuf)).
  rewrite (bind_eq _ _ _ _ _ (write_Fields_obj _ _ _ _ _)).
  rewrite (bind_eq _ _ _ _ _ (memcpy_whole _ _ _ Hpos)).
  by rewrite write_Fields_obj.
Qed.

Lemma TupleInst_ctor_eq ly this loc ty Elems σ :
  0 < sizeofValue ly →
  Buffers σ !! this = Some (sizeofInst ly TupleInst
                            + N.of_nat (length Elems) * sizeofValue ly) →
  TupleInst_ctor ly this loc ty Elems σ =
  Ok (tt, obj this (mkInstruction TupleInst [ty] loc None
                      (TupleInstMembers (length Elems) (Some <$> Elems))) [] σ).
Proof.
  intros Hpos Hbuf. unfold TupleInst_ctor.
  rewrite (bind_eq _ _ _ _ _ (Instruction_ctor_eq _ _ _ _ _ (mk_is_Some _ _ Hbuf))).
  rewrite (bind_eq _ _ _ _ _ (trailing_capacity_eq _ _ _ _ _ _ _ Hpos Hbuf)).
  rewrite (bind_eq _ _ _ _ _ (write_Fields_obj _ _ _ _ _)).
  rewrite (bind_eq _ _ _ _ _ (memcpy_whole _ _ _ Hpos)).
  by rewrite write_Fields_obj.
Qed.

Lemma SpecializeInst_ctor_eq ly this loc Operand Substitutions DestTy σ :
  0 < sizeofSubstitution ly →
  Buffers σ !! this = Some (sizeofInst ly SpecializeInst
                            + N.of_nat (length Substitutions) * sizeofSubstitution ly) →
  SpecializeInst_ctor ly this loc Operand Substitutions DestTy σ =
  Ok (tt, obj this (mkInstruction SpecializeInst [DestTy] loc None
                      (SpecializeInstMembers Operand (length Substitutions)
                         (Some <$> Substitutions))) [] σ).
Proof.
  intros Hpos Hbuf. unfold SpecializeInst_ctor.
  rewrite (bind_eq _ _ _ _ _ (Instruction_ctor_eq _ _ _ _ _ (mk_is_Some _ _ Hbuf))).
  rewrite (bind_eq _ _ _ _ _ (trailing_capacity_eq _ _ _ _ _ _ _ Hpos Hbuf)).
  rewrite (bind_eq _ _ _ _ _ (write_Fields_obj _ _ _ _ _)).
  rewrite (bind_eq _ _ _ _ _ (memcpy_whole _ _ _ Hpos)).
  by rewrite write_Fields_obj.
Qed.

Lemma Value_getType_frame V σ t σ2 :
  Value_getType V σ = Ok (t, σ) → Insts σ2 = Insts σ →
  Value_getType V σ2 = Ok (t, σ2).
Proof.
  unfold Value_getType. intros (r & σ1 & [Hr ->]%deref_Ok & H)%bind_Ok HI.
  rewrite <- HI in Hr. rewrite (bind_eq _ _ _ _ _ (deref_eq _ _ _ Hr)).
  destruct (Types r !! ResultNumber V); [|done]. by injection H as ->.
Qed.

Lemma allocate_eq Size Align σ :
  Align ≠ 0 →
  allocate Size Align σ =
  Ok ((ArenaNext σ + Align - 1) / Align * Align,
      allocated ((ArenaNext σ + Align - 1) / Align * Align) Size σ).
Proof. intros Ha. by apply allocate_Ok. Qed.

Lemma allocated_Buffers Buffer Size σ :
  Buffers (allocated Buffer Size σ) !! Buffer = Some Size.
Proof. apply lookup_insert_eq. Qed.

Lemma read_slot_eq {E} (l : list E) i x σ :
  l !! i = Some x → read_slot (length l) (Some <$> l) i σ = Ok (x, σ).
Proof.
  intros Hx. unfold read_slot.
  rewrite bool_decide_eq_true_2 by (by eapply lookup_lt_Some).
  rewrite bind_assert_true. by rewrite list_lookup_fmap, Hx.
Qed.

Lemma reads_back_FunctionInst this kind tys loc p Callee Args es σ :
  reads_back_values this
    (obj this (mkInstruction kind tys loc p
                 (FunctionInstMembers Callee (length Args) (Some <$> Args))) es σ)
    Args.
Proof.
  split.
  - unfold getNumElements. by rewrite (bind_eq _ _ _ _ _ (deref_obj _ _ _ _)).
  - intros i v Hv. unfold getOperand.
    rewrite (bind_eq _ _ _ _ _ (deref_obj _ _ _ _)). by apply read_slot_eq.
Qed.

Lemma reads_back_TupleInst this kind tys loc p Elems es σ :
  reads_back_values this
    (obj this (mkInstruction kind tys loc p
                 (TupleInstMembers (length Elems) (Some <$> Elems))) es σ)
    Elems.
Proof.
  split.
  - unfold getNumElements. by rewrite (bind_eq _ _ _ _ _ (deref_obj _ _ _ _)).
  - intros i v Hv. unfold getOperand.
    rewrite (bind_eq _ _ _ _ _ (deref_obj _ _ _ _)). by apply read_slot_eq.
Qed.

Lemma reads_back_SpecializeInst this kind tys loc p Operand Substitutions es σ :
  reads_back_substitutions this
    (obj this (mkInstruction kind tys loc p
                 (SpecializeInstMembers Operand (length Substitutions)
                    (Some <$> Substitutions))) es σ)
    Substitutions.
Proof.
  split.
  - unfold getNumElements. by rewrite (bind_eq _ _ _ _ _ (deref_obj _ _ _ _)).
  - intros i v Hv. unfold getSubstitution.
    rewrite (bind_eq _ _ _ _ _ (deref_obj _ _ _ _)). by apply read_slot_eq.
Qed.

Lemma FunctionInst_create_eq ly kind ctor Args σ r :
  Layout_ok ly →
  (∀ this σa, Buffers σa !! this =
                Some (sizeofInst ly kind + N.of_nat (length Args) * sizeofValue ly) →
              Insts σa = Insts σ →
              ctor this σa = Ok (tt, obj this r [] σa)) →
  ∃ this σ', FunctionInst_create ly kind ctor Args σ = Ok (this, σ') ∧
             ∃ σa, σ' = obj this r [] σa.
Proof.
  intros (_ & Halign & _) Hctor. unfold FunctionInst_create.
  assert (alignofInst ly kind ≠ 0) as Hne by (specialize (Halign kind); lia).
  rewrite (bind_eq _ _ _ _ _ (allocate_eq _ _ _ Hne)).
  erewrite bind_eq; [|apply Hctor; [apply allocated_Buffers|done]].
  eexists _, _. split; [done|]. by eexists.
Qed.

(** C6: built by its [create] function from a list of elements, an apply
    (with a callee of function type), a closure, a tuple and a specialize
    instruction hold the list itself in the trailing array, element for
    element, and its length in the header; the count read back is the length
    of the list, and the element read back at every index of the list is the
    element of the list at that index. *)
Theorem variable_length_round_trip (ly : Layout) (σ : State) :
  Layout_ok ly →
  (∀ loc Callee Args i o,
     Value_getType Callee σ = Ok (FunctionType i o, σ) →
     ∃ this σ' r, ApplyInst_create ly loc Callee Args σ = Ok (this, σ') ∧
       Insts σ' !! this = Some r ∧
       Fields r = FunctionInstMembers Callee (length Args) (Some <$> Args) ∧
       reads_back_values this σ' Args) ∧
  (∀ loc Callee Args t,
     Value_getType Callee σ = Ok (t, σ) →
     ∃ this σ' r, ClosureInst_create ly loc Callee Args σ = Ok (this, σ') ∧
       Insts σ' !! this = Some r ∧
       Fields r = FunctionInstMembers Callee (length Args) (Some <$> Args) ∧
       reads_back_values this σ' Args) ∧
  (∀ loc ty Elements,
     ∃ this σ' r, TupleInst_createImpl ly loc ty Elements σ = Ok (this, σ') ∧
       Insts σ' !! this = Some r ∧
       Fields r = TupleInstMembers (length Elements) (Some <$> Elements) ∧
       reads_back_values this σ' Elements) ∧
  (∀ loc Operand Substitutions DestTy,
     ∃ this σ' r,
       SpecializeInst_create ly loc Operand Substitutions DestTy σ = Ok (this, σ') ∧
       Insts σ' !! this = Some r ∧
       Fields r = SpecializeInstMembers Operand (length Substitutions)
                    (Some <$> Substitutions) ∧
       reads_back_substitutions this σ' Substitutions).
Proof.
  intros Hly. pose proof Hly as (Hsize & Halign & Hval & Hsub).
  split; [|split; [|split]].
  - intros loc Callee Args i o Hty.
    destruct (FunctionInst_create_eq ly ApplyInst
                (λ this, ApplyInst_ctor ly this loc Callee Args) Args σ
                (mkInstruction ApplyInst [o] loc None
                   (FunctionInstMembers Callee (length Args) (Some <$> Args))) Hly)
      as (this & σ' & Hc & σa & ->).
    { intros this σa Hbuf HI. unfold ApplyInst_ctor.
      rewrite (bind_eq _ _ _ _ _ (Value_getType_frame _ _ _ σa Hty HI)).
      cbn [castTo_FunctionType]. rewrite bind_ret. simpl.
      by apply FunctionInst_ctor_eq. }
    eexists this, _, _. split; [exact Hc|]. split; [apply obj_lookup|].
    split; [done|]. apply reads_back_FunctionInst.
  - intros loc Callee Args t Hty.
    destruct (FunctionInst_create_eq ly ClosureInst
                (λ this, ClosureInst_ctor ly this loc Callee Args) Args σ
                (mkInstruction ClosureInst [t] loc None
                   (FunctionInstMembers Callee (length Args) (Some <$> Args))) Hly)
      as (this & σ' & Hc & σa & ->).
    { intros this σa Hbuf HI. unfold ClosureInst_ctor.
      rewrite (bind_eq _ _ _ _ _ (Value_getType_frame _ _ _ σa Hty HI)).
      by apply FunctionInst_ctor_eq. }
    eexists this, _, _. split; [exact Hc|]. split; [apply obj_lookup|].
    split; [done|]. apply reads_back_FunctionInst.
  - intros loc ty Elements. unfold TupleInst_createImpl.
    assert (alignofInst ly TupleInst ≠ 0) as Hne
      by (specialize (Halign TupleInst); lia).
    rewrite (bind_eq _ _ _ _ _ (allocate_eq _ _ _ Hne)).
    erewrite bind_eq;
      [|apply TupleInst_ctor_eq; [done|apply allocated_Buffers]].
    eexists _, _, _. split; [done|]. split; [apply obj_lookup|].
    split; [done|]. apply reads_back_TupleInst.
  - intros loc Operand Substitutions DestTy. unfold SpecializeInst_create.
    assert (alignofInst ly SpecializeInst ≠ 0) as Hne
      by (specialize (Halign SpecializeInst); lia).
    rewrite (bind_eq _ _ _ _ _ (allocate_eq _ _ _ Hne)).
    erewrite bind_eq;
      [|apply SpecializeInst_ctor_eq; [done|apply allocated_Buffers]].
    eexists _, _, _. split; [done|]. split; [apply obj_lookup|].
    split; [done|]. apply reads_back_SpecializeInst.
Qed.

(** ** Integer literals *)

Lemma IntegerLiteralInst_getValue_eq this σ r E :
  Insts σ !! this = Some r → Loc r = LocExpr E →
  IntegerLiteralInst_getValue this σ =
  match E with
  | IntegerLiteralExpr _ v => Ok (v, σ)
  | CharacterLiteralExpr _ c => Ok (APInt_of 32 c, σ)
  | _ => Fail (UnreachableExecuted
                 "int_literal instruction associated with unexpected ast node!")
  end.
Proof.
  intros Hr HL.
  unfold IntegerLiteralInst_getValue, IntegerLiteralInst_getExpr, getLocExpr.
  rewrite (bind_eq _ _ _ E σ).
  - by destruct E.
  - rewrite (bind_eq _ _ _ _ _ (deref_eq _ _ _ Hr)). by rewrite HL.
Qed.

(** C10: an integer-literal instruction built from an integer-literal
    expression returns that expression's value; built from a
    character-literal expression it returns a value of 32 bits holding the
    character code; and with any other expression behind it, [getValue]
    ends in [llvm_unreachable]. *)
Theorem IntegerLiteralInst_getValue_cases (this : InstId) (σ : State) :
  is_Some (Buffers σ !! this) →
  (∀ ty v, ∃ σ',
     IntegerLiteralInst_ctor_int this ty v σ = Ok (tt, σ') ∧
     IntegerLiteralInst_getValue this σ' = Ok (v, σ')) ∧
  (∀ ty c, (0 ≤ c < 2 ^ 32)%Z → ∃ σ',
     IntegerLiteralInst_ctor_char this ty c σ = Ok (tt, σ') ∧
     IntegerLiteralInst_getValue this σ' = Ok (mkAPInt 32 c, σ')) ∧
  (∀ σ0 r E,
     Insts σ0 !! this = Some r → Loc r = LocExpr E →
     dyn_cast_IntegerLiteralExpr E = None →
     dyn_cast_CharacterLiteralExpr E = None →
     IntegerLiteralInst_getValue this σ0 =
     Fail (UnreachableExecuted
             "int_literal instruction associated with unexpected ast node!")).
Proof.
  intros Hbuf. split; [|split].
  - intros ty v. eexists. split; [by apply Instruction_ctor_eq|].
    by erewrite IntegerLiteralInst_getValue_eq; [|apply obj_lookup|done].
  - intros ty c Hc. eexists. split; [by apply Instruction_ctor_eq|].
    erewrite IntegerLiteralInst_getValue_eq; [|apply obj_lookup|done].
    unfold APInt_of. do 3 f_equal. by apply Z.mod_small.
  - intros σ0 r E Hr HL Hint Hchar.
    rewrite (IntegerLiteralInst_getValue_eq this σ0 r E Hr HL).
    by destruct E.
Qed.

(** ** The theorems at work on a small function *)

Lemma lp64_ok : Layout_ok lp64.
Proof. repeat split; intros; reflexivity. Qed.

Lemma demo_reachable : reachable lp64 demo.
Proof.
  apply (run_all_reachable lp64 demo_ops initial); [constructor|].
  vm_compute. reflexivity.
Qed.

Lemma demo_wf : wf demo.
Proof. exact (wf_reachable lp64 demo lp64_ok demo_reachable). Qed.

Lemma splice_same_block_witness :
  ∃ σ', iplist_splice 1 0 1 1 3 demo = Ok (tt, σ') ∧
        Log σ' = EvCompareBlocks 1 1 :: Log demo ∧
        Insts σ' = Insts demo ∧
        Blocks σ' !! 1 = Some [192; 240; 96; 144].
Proof.
  destruct (splice_same_block 1 0 1 3 demo [96; 192; 240; 144])
    as (σ' & H & HL & HI & _ & HB & _);
    [exact demo_wf | reflexivity | lia | simpl; lia | simpl; lia |].
  exists σ'. split; [exact H|]. split; [exact HL|]. split; [exact HI|].
  rewrite HB. reflexivity.
Defined.

Lemma parent_consistency_witness :
  (∃ σ', iplist_insert 2 1 0 demo = Ok (tt, σ') ∧ parent_of σ' 0 = Some 2) ∧
  (∃ σ', removeFromParent 96 demo = Ok (tt, σ') ∧
         iplist_remove 1 96 demo = Ok (tt, σ') ∧
         ∃ r', Insts σ' !! 96 = Some r' ∧ ParentBB r' = None).
Proof.
  split.
  - destruct (parent_consistency lp64 demo 0 demo_unreachable)
      as (H & _ & _); [exact lp64_ok | exact demo_reachable | reflexivity |].
    apply (H 2 [48] 1%nat); [reflexivity | reflexivity | simpl; lia].
  - destruct (parent_consistency lp64 demo 96 demo_literal)
      as (_ & H & _); [exact lp64_ok | exact demo_reachable | reflexivity |].
    apply (H 1). reflexivity.
Defined.

Lemma splice_cross_block_witness :
  ∃ σ', iplist_splice 2 0 1 0 2 demo = Ok (tt, σ') ∧
        parent_of σ' 96 = Some 2 ∧ parent_of σ' 192 = Some 2 ∧
        parent_of σ' 240 = Some 1 ∧ parent_of σ' 144 = Some 1 ∧
        Blocks σ' !! 1 = Some [240; 144] ∧
        Blocks σ' !! 2 = Some [96; 192; 48].
Proof.
  destruct (splice_cross_block 1 2 0 0 2 demo [96; 192; 240; 144] [48])
    as (σ' & H & Hrun & H1 & Hrest & H2 & _);
    [exact demo_wf | discriminate | reflexivity | reflexivity
    | lia | simpl; lia | simpl; lia |].
  exists σ'. split; [exact H|].
  split; [apply Hrun; simpl; set_solver|].
  split; [apply Hrun; simpl; set_solver|].
  split; [apply Hrest; simpl; set_solver|].
  split; [apply Hrest; simpl; set_solver|].
  split; [exact H1 | exact H2].
Defined.

Lemma successors_by_variant_witness :
  ∃ σ' s0 s1,
    CondBranchInst_ctor 0 LocNone (mkValue 96 0) 2 1 demo_buffer = Ok (tt, σ') ∧
    getSuccessors 0 σ' = Ok ([s0; s1], σ') ∧
    targets [s0; s1] = [Some 2; Some 1].
Proof.
  destruct (successors_by_variant 0 demo_buffer) as (_ & H & _).
  - exists 48. reflexivity.
  - exact (H LocNone (mkValue 96 0) 2 1).
Defined.

Lemma getSuccessors_contract_witness :
  getSuccessors 96 demo =
    Fail (AssertionFailure "cast<Ty>() argument of incompatible type!") ∧
  ∀ msg, getSuccessors 144 demo ≠ Fail (AssertionFailure msg).
Proof.
  split.
  - destruct (getSuccessors_contract 96 demo demo_literal) as (H & _);
      [reflexivity|]. apply H. reflexivity.
  - destruct (getSuccessors_contract 144 demo
                (set_ParentBB (Some 1)
                   (CondBranchInst_built 144 LocNone (mkValue 96 0) 2 1)))
      as (_ & H & _); [reflexivity|].
    apply H. reflexivity.
Defined.

Lemma variable_length_round_trip_witness :
  ∃ this σ' r,
    TupleInst_createImpl lp64 LocNone TheEmptyTupleType
      [mkValue 96 0; mkValue 192 0; mkValue 240 0] demo = Ok (this, σ') ∧
    Insts σ' !! this = Some r ∧
    Fields r = TupleInstMembers 3
                 [Some (mkValue 96 0); Some (mkValue 192 0); Some (mkValue 240 0)] ∧
    reads_back_values this σ' [mkValue 96 0; mkValue 192 0; mkValue 240 0].
Proof.
  destruct (variable_length_round_trip lp64 demo lp64_ok) as (_ & _ & H & _).
  exact (H LocNone TheEmptyTupleType [mkValue 96 0; mkValue 192 0; mkValue 240 0]).
Defined.

Lemma insert_remove_assertions_witness :
  addNodeToList 2 96 demo = Fail (AssertionFailure "Already in a list!") ∧
  removeNodeFromList 2 0 demo = Fail (AssertionFailure "Not in a list!") ∧
  (∃ σ', addNodeToList 2 0 demo = Ok (tt, σ')) ∧
  (∃ σ', removeNodeFromList 1 96 demo = Ok (tt, σ')).
Proof.
  destruct (insert_remove_assertions 2 0 96 demo demo_literal) as (H96 & _);
    [reflexivity|].
  destruct (insert_remove_assertions 1 0 96 demo demo_literal) as (H96' & _);
    [reflexivity|].
  destruct (insert_remove_assertions 2 0 0 demo demo_unreachable) as (_ & H0);
    [reflexivity|].
  split; [apply H96; discriminate|].
  split; [apply H0; reflexivity|].
  split; [apply H0; reflexivity|].
  apply H96'. discriminate.
Defined.

Lemma remove_keeps_erase_destroys_witness :
  (∃ σ', removeFromParent 96 demo = Ok (tt, σ') ∧
         Insts σ' !! 96 = Some (set_ParentBB None demo_literal) ∧
         Blocks σ' !! 1 = Some [192; 240; 144]) ∧
  (∃ σ', eraseFromParent 96 demo = Ok (tt, σ') ∧
         Insts σ' !! 96 = None ∧
         Blocks σ' !! 1 = Some [192; 240; 144]).
Proof.
  destruct (remove_keeps_erase_destroys demo 96 demo_literal 1 [96; 192; 240; 144])
    as ((σ1 & H1 & HI1 & HB1 & _) & (σ2 & H2 & HI2 & HB2 & _));
    [exact demo_wf | reflexivity | reflexivity | reflexivity |].
  split.
  - exists σ1. split; [exact H1|]. split; [exact HI1 | exact HB1].
  - exists σ2. split; [exact H2|]. split; [exact HI2 | exact HB2].
Defined.

Lemma CondBranchInst_init_then_assign_witness :
  ∃ σ',
    CondBranchInst_ctor 0 LocNone (mkValue 96 0) 2 1 demo_buffer = Ok (tt, σ') ∧
    Log σ' = [EvSuccAssign 0 1 1; EvSuccAssign 0 0 2; EvSuccInit 0 1; EvSuccInit 0 0].
Proof.
  destruct (CondBranchInst_init_then_assign 0 LocNone (mkValue 96 0) 2 1 demo_buffer)
    as (σ2 & σ' & H & HL & _).
  - exists 48. reflexivity.
  - exists σ'. split; [exact H | exact HL].
Defined.

Lemma IntegerLiteralInst_getValue_cases_witness :
  ∃ σ', IntegerLiteralInst_ctor_char 0 (NominalType 1) 97 demo_buffer = Ok (tt, σ') ∧
        IntegerLiteralInst_getValue 0 σ' = Ok (mkAPInt 32 97, σ').
Proof.
  destruct (IntegerLiteralInst_getValue_cases 0 demo_buffer) as (_ & H & _).
  - exists 48. reflexivity.
  - apply (H (NominalType 1) 97%Z). lia.
Defined.

(** * Further properties of the code *)

(** ** The list operations touch nothing but parent pointers *)

Lemma same_but_parent_refl r : same_but_parent r r.
Proof. by repeat split. Qed.

Lemma same_but_parent_trans r1 r2 r3 :
  same_but_parent r1 r2 → same_but_parent r2 r3 → same_but_parent r1 r3.
Proof. intros (?&?&?&?) (?&?&?&?). repeat split; congruence. Qed.

Lemma parents_only_refl σ : parents_only σ σ.
Proof.
  intros I. destruct (Insts σ !! I); constructor. apply same_but_parent_refl.
Qed.

Lemma parents_only_trans σ1 σ2 σ3 :
  parents_only σ1 σ2 → parents_only σ2 σ3 → parents_only σ1 σ3.
Proof.
  intros H12 H23 I. specialize (H12 I). specialize (H23 I).
  destruct H12 as [r1 r2 Hr|]; inversion H23; subst; constructor.
  by eapply same_but_parent_trans.
Qed.

Lemma parents_only_Insts σ σ' : Insts σ' = Insts σ → parents_only σ σ'.
Proof. intros HI I. rewrite HI. apply parents_only_refl. Qed.

Lemma parents_only_with_parent I p σ : parents_only σ (with_parent I p σ).
Proof.
  intros J. rewrite with_parent_lookup. case_decide; [|apply parents_only_refl].
  destruct (Insts σ !! J); constructor. by repeat split.
Qed.

Lemma parents_only_with_parents P run σ : parents_only σ (with_parents P run σ).
Proof.
  intros J. rewrite with_parents_lookup. case_decide; [|apply parents_only_refl].
  destruct (Insts σ !! J); constructor. by repeat split.
Qed.

Lemma transferNodes_loop_Ok P nodes first last σ u σ' :
  transferNodes_loop P nodes first last σ = Ok (u, σ') →
  ∃ run, σ' = with_parents P run σ.
Proof.
  revert first σ. induction nodes as [|Node rest IH]; intros first σ;
    rewrite transferNodes_loop_unfold; case_bool_decide as Hb.
  - intros [= _ <-]. by exists [].
  - done.
  - intros [= _ <-]. by exists [].
  - intros (? & σ1 & [_ ->]%write_ParentBB_Ok & H)%bind_Ok.
    apply IH in H as (run & ->). by exists (Node :: run).
Qed.

Lemma transferNodesFromList_Ok this L2 first last σ u σ' :
  transferNodesFromList this L2 first last σ = Ok (u, σ') →
  ∃ run, σ' = with_parents this run (add_Log (EvCompareBlocks this L2) σ).
Proof.
  unfold transferNodesFromList, getContainingBlock. rewrite bind_modify.
  case_bool_decide as Hb.
  - intros [= _ <-]. by exists [].
  - intros (l & σ1 & [_ ->]%getInsts_Ok & H)%bind_Ok.
    by apply transferNodes_loop_Ok in H.
Qed.

Lemma relinks_parents_only ly op σ σ' :
  relinks op = true → run ly op σ = Ok (tt, σ') →
  parents_only σ σ' ∧ ArenaNext σ' = ArenaNext σ ∧ Buffers σ' = Buffers σ.
Proof.
  intros Hop H. destruct op; try discriminate Hop; simpl in H.
  - apply iplist_insert_Ok in H as (r & l & _ & _ & _ & _ & ->).
    split; [|done]. apply (parents_only_with_parent I (Some B) σ).
  - apply bind_Ok in H as (B & σ1 & (r & _ & _ & ->)%getParent_Ok & H).
    apply iplist_remove_Ok in H as (r' & l & _ & _ & _ & _ & ->).
    split; [|done]. apply (parents_only_with_parent I None σ).
  - apply iplist_splice_Ok in H as (src & dst & _ & _ & _ & _ & _ & H).
    apply transferNodesFromList_Ok in H as (run & ->).
    rewrite with_parents_ArenaNext. split; [|split; [done|]].
    + eapply parents_only_trans; [|apply parents_only_with_parents].
      by apply parents_only_Insts.
    + clear. induction run as [|J run IH] using rev_ind; [done|].
      unfold with_parents. by rewrite foldl_app.
Qed.

Lemma deref_None I σ : Insts σ !! I = None → deref I σ = Fail Undefined.
Proof. unfold deref, bind, get, fail. by intros ->. Qed.

Lemma read_slot_answer {E} n (storage : list (option E)) i σ σ' :
  answer (read_slot n storage i σ') = answer (read_slot n storage i σ).
Proof.
  unfold read_slot, assert. case_bool_decide; [|done].
  rewrite !bind_ret. by destruct (storage !! i) as [[x|]|].
Qed.

Lemma IntegerLiteralInst_getValue_answer this σ r :
  Insts σ !! this = Some r →
  answer (IntegerLiteralInst_getValue this σ) =
  match Loc r with
  | LocExpr (IntegerLiteralExpr _ v) => Ok v
  | LocExpr (CharacterLiteralExpr _ c) => Ok (APInt_of 32 c)
  | LocExpr _ => Fail (UnreachableExecuted
                   "int_literal instruction associated with unexpected ast node!")
  | _ => Fail Undefined
  end.
Proof.
  intros Hr.
  unfold IntegerLiteralInst_getValue, IntegerLiteralInst_getExpr, getLocExpr.
  unfold deref, get, ret, fail, bind. cbv beta iota. rewrite Hr.
  destruct (Loc r) as [E| | |]; try done. by destruct E.
Qed.

Lemma accessors_agree σ σ' this :
  option_Forall2 same_but_parent (Insts σ !! this) (Insts σ' !! this) →
  answer (getSuccessors this σ') = answer (getSuccessors this σ) ∧
  answer (IntegerLiteralInst_getValue this σ') =
    answer (IntegerLiteralInst_getValue this σ) ∧
  answer (getNumElements this σ') = answer (getNumElements this σ) ∧
  (∀ i, answer (getOperand this i σ') = answer (getOperand this i σ)) ∧
  (∀ i, answer (getSubstitution this i σ') = answer (getSubstitution this i σ)).
Proof.
  intros H. inversion H as [r r' Hs Hr Hr'|Hr Hr']; symmetry in Hr, Hr'.
  - destruct r as [k tys loc p m], r' as [k' tys' loc' p' m'].
    destruct Hs as (Hk & Ht & Hl & Hm). simpl in *. subst k' tys' loc' m'.
    split; [|split; [|split; [|split]]].
    + rewrite (getSuccessors_dispatch _ _ _ Hr), (getSuccessors_dispatch _ _ _ Hr').
      simpl. destruct k; try done.
      all: unfold CondBranchInst_getSuccessors, BranchInst_getSuccessors; simpl.
      all: try by destruct m.
    + by rewrite (IntegerLiteralInst_getValue_answer _ _ _ Hr),
        (IntegerLiteralInst_getValue_answer _ _ _ Hr').
    + unfold getNumElements.
      rewrite (bind_eq _ _ _ _ _ (deref_eq _ _ _ Hr)).
      rewrite (bind_eq _ _ _ _ _ (deref_eq _ _ _ Hr')). simpl. by destruct m.
    + intros i. unfold getOperand.
      rewrite (bind_eq _ _ _ _ _ (deref_eq _ _ _ Hr)).
      rewrite (bind_eq _ _ _ _ _ (deref_eq _ _ _ Hr')). simpl.
      destruct m; try done; apply read_slot_answer.
    + intros i. unfold getSubstitution.
      rewrite (bind_eq _ _ _ _ _ (deref_eq _ _ _ Hr)).
      rewrite (bind_eq _ _ _ _ _ (deref_eq _ _ _ Hr')). simpl.
      destruct m; try done; apply read_slot_answer.
  - unfold getSuccessors, IntegerLiteralInst_getValue, IntegerLiteralInst_getExpr,
      getLocExpr, getNumElements, getOperand, getSubstitution.
    unfold deref, get, fail, bind. cbv beta iota. rewrite Hr, Hr'. by repeat split.
Qed.

(** X1: an insertion, a [removeFromParent] or a splice that returns leaves
    every instruction with its kind, types, location and members, and leaves
    the arena alone: only parent pointers differ.  So the successor
    accessor, [getValue] and the reads of count and elements answer after it
    what they answered before, for every instruction. *)
Theorem relinking_keeps_contents (ly : Layout) (op : Op) (σ σ' : State) :
  relinks op = true → run ly op σ = Ok (tt, σ') →
  parents_only σ σ' ∧ ArenaNext σ' = ArenaNext σ ∧ Buffers σ' = Buffers σ ∧
  ∀ this,
    answer (getSuccessors this σ') = answer (getSuccessors this σ) ∧
    answer (IntegerLiteralInst_getValue this σ') =
      answer (IntegerLiteralInst_getValue this σ) ∧
    answer (getNumElements this σ') = answer (getNumElements this σ) ∧
    (∀ i, answer (getOperand this i σ') = answer (getOperand this i σ)) ∧
    (∀ i, answer (getSubstitution this i σ') = answer (getSubstitution this i σ)).
Proof.
  intros Hop H.
  destruct (relinks_parents_only ly op σ σ' Hop H) as (Hp & HA & HB).
  split; [done|]. split; [done|]. split; [done|].
  intros this. apply accessors_agree, Hp.
Qed.

(** ** Construction touches nothing but the new object *)

Lemma operator_new_built Size Align ctor σ this σ' :
  (∀ this σ u σ', ctor this σ = Ok (u, σ') → built this σ σ') →
  operator_new Size Align ctor σ = Ok (this, σ') →
  ArenaNext σ ≤ this ∧ built this (allocated this Size σ) σ'.
Proof.
  intros Hctor H. unfold operator_new in H.
  apply bind_Ok in H as (Buffer & σ1 & (Ha & HB & ->)%allocate_Ok & H).
  apply bind_Ok in H as (u & σ2 & Hc & [= <- <-]).
  apply Hctor in Hc. split; [|done]. subst Buffer. by apply round_up_ge.
Qed.

Lemma creates_built ly op σ σ' :
  creates op = true → run ly op σ = Ok (tt, σ') →
  ∃ this Size, ArenaNext σ ≤ this ∧ built this (allocated this Size σ) σ'.
Proof.
  intros Hop H. destruct op; try discriminate Hop; simpl in H.
  all: apply bind_Ok in H as (this & σ1 & H & [= <-]).
  all: eexists this, _; eapply operator_new_built; [|exact H]; intros ????.
  - apply ApplyInst_ctor_built.
  - apply ClosureInst_ctor_built.
  - apply SpecializeInst_ctor_built.
  - apply TupleInst_ctor_built.
  - apply Instruction_ctor_built.
  - apply Instruction_ctor_built.
  - apply UnreachableInst_ctor_built.
  - apply ReturnInst_ctor_built.
  - apply BranchInst_ctor_built.
  - apply CondBranchInst_ctor_built.
Qed.

(** X2: building an instruction, by any of the constructors, in a
    consistent store puts one new object at an address of the arena that
    held none, with a null parent; it changes no block list and no other
    instruction, so every accessor answers for the instructions that were
    there what it answered before. *)
Theorem construction_keeps_others (ly : Layout) (op : Op) (σ σ' : State) :
  wf σ → creates op = true → run ly op σ = Ok (tt, σ') →
  Blocks σ' = Blocks σ ∧
  ∃ this r',
    ArenaNext σ ≤ this ∧ Insts σ !! this = None ∧
    Insts σ' !! this = Some r' ∧ ParentBB r' = None ∧
    (∀ J, J ≠ this → Insts σ' !! J = Insts σ !! J) ∧
    (∀ J, is_Some (Insts σ !! J) →
       answer (getSuccessors J σ') = answer (getSuccessors J σ) ∧
       answer (IntegerLiteralInst_getValue J σ') =
         answer (IntegerLiteralInst_getValue J σ) ∧
       answer (getNumElements J σ') = answer (getNumElements J σ) ∧
       (∀ i, answer (getOperand J i σ') = answer (getOperand J i σ)) ∧
       (∀ i, answer (getSubstitution J i σ') = answer (getSubstitution J i σ))).
Proof.
  intros Hwf Hop H.
  destruct (creates_built ly op σ σ' Hop H)
    as (this & Size & Hge & [HB HA HF HO (r' & Hr' & Hp')]).
  simpl in *. split; [done|].
  assert (Insts σ !! this = None) as Hnone.
  { destruct (Insts σ !! this) as [r|] eqn:Hr; [|done].
    assert (this < ArenaNext σ) by (apply Hwf; eauto). lia. }
  exists this, r'. repeat (split; [done|]).
  intros J [r Hr]. apply accessors_agree.
  rewrite HO by congruence. rewrite Hr. constructor. apply same_but_parent_refl.
Qed.

(** ** The update pass and its range *)

Lemma transferNodes_loop_overrun P nodes first last σ :
  (∀ I, I ∈ nodes → is_Some (Insts σ !! I)) →
  (last < first ∨ first + length nodes < last)%nat →
  transferNodes_loop P nodes first last σ = Fail Undefined.
Proof.
  revert first σ. induction nodes as [|Node rest IH]; intros first σ Hlive Hr;
    rewrite transferNodes_loop_unfold; simpl in Hr;
    rewrite bool_decide_eq_false_2 by lia; [done|].
  destruct (Hlive Node) as [r Hn]; [by left|].
  rewrite (bind_eq _ _ _ _ _ (write_ParentBB_eq _ _ _ _ Hn)).
  apply IH; [|lia]. intros J HJ. rewrite with_parent_lookup.
  case_decide; [rewrite fmap_is_Some|]; apply Hlive; by right.
Qed.

(** X3: between two different blocks, with the nodes of the list alive, the
    callback returns exactly when [first, last) is a range of positions of
    the list (or is empty): with [last] behind [first] or beyond the end of
    the list the loop walks off the list, which is undefined. *)
Theorem transferNodesFromList_range (this L2 : BlockId) (first last : nat)
    (σ : State) (l : list InstId) :
  this ≠ L2 →
  Blocks σ !! this = Some l →
  (∀ I, I ∈ l → is_Some (Insts σ !! I)) →
  ((first = last ∨ (first ≤ last ∧ last ≤ length l))%nat →
     ∃ σ', transferNodesFromList this L2 first last σ = Ok (tt, σ')) ∧
  (¬ (first = last ∨ (first ≤ last ∧ last ≤ length l))%nat →
     transferNodesFromList this L2 first last σ = Fail Undefined).
Proof.
  intros Hne Hl Hlive. split.
  - intros [<-|[H1 H2]].
    + eexists. unfold transferNodesFromList, getContainingBlock.
      rewrite bind_modify, bool_decide_eq_false_2 by done.
      rewrite (bind_eq _ _ _ l (add_Log (EvCompareBlocks this L2) σ))
        by (by apply getInsts_eq).
      rewrite transferNodes_loop_unfold. by rewrite bool_decide_eq_true_2.
    + exists (with_parents this (take (last - first) (drop first l))
                (add_Log (EvCompareBlocks this L2) σ)).
      replace last with (first + (last - first))%nat at 1 by lia.
      apply (transferNodesFromList_other this L2 first (last - first) σ l);
        [done..|lia|].
      intros I HI. apply Hlive. by eapply elem_of_run.
  - intros Hbad. unfold transferNodesFromList, getContainingBlock.
    rewrite bind_modify, bool_decide_eq_false_2 by done.
    rewrite (bind_eq _ _ _ l (add_Log (EvCompareBlocks this L2) σ))
      by (by apply getInsts_eq).
    apply transferNodes_loop_overrun.
    + intros I HI. apply Hlive. by apply (subseteq_drop first l).
    + rewrite length_drop. lia.
Qed.

(** ** Adding and removing compose *)

Lemma with_parent_undo I p σ r :
  Insts σ !! I = Some r →
  Insts (with_parent I (ParentBB r) (with_parent I p σ)) = Insts σ.
Proof.
  intros Hr. apply map_eq. intros J. rewrite !with_parent_lookup.
  case_decide; [|done]. subst J. rewrite Hr. simpl. by destruct r.
Qed.

(** X4: once [addNodeToList] has returned for an instruction, adding the
    instruction to any list again stops in "Already in a list!", and
    removing it returns and gives back the instructions as they were before
    the addition; once [removeNodeFromList] has returned, removing again
    stops in "Not in a list!". *)
Theorem add_remove_compose (this L2 : BlockId) (I : InstId) (σ σ' : State) :
  (addNodeToList this I σ = Ok (tt, σ') →
     addNodeToList L2 I σ' = Fail (AssertionFailure "Already in a list!") ∧
     ∃ σ'', removeNodeFromList L2 I σ' = Ok (tt, σ'') ∧ Insts σ'' = Insts σ) ∧
  (removeNodeFromList this I σ = Ok (tt, σ') →
     removeNodeFromList L2 I σ' = Fail (AssertionFailure "Not in a list!") ∧
     ∃ σ'', addNodeToList L2 I σ' = Ok (tt, σ'') ∧ parent_of σ'' I = Some L2).
Proof.
  split.
  - intros (r & Hr & Hp & ->)%addNodeToList_Ok.
    assert (Insts (with_parent I (Some this) σ) !! I
            = Some (set_ParentBB (Some this) r)) as Hr'.
    { by rewrite with_parent_lookup, decide_True, Hr. }
    split; [by eapply addNodeToList_Fail|].
    eexists. split; [by eapply removeNodeFromList_eq|].
    rewrite <- Hp. by apply with_parent_undo.
  - intros (r & Hr & Hp & ->)%removeNodeFromList_Ok.
    assert (Insts (with_parent I None σ) !! I = Some (set_ParentBB None r)) as Hr'.
    { by rewrite with_parent_lookup, decide_True, Hr. }
    split; [by eapply removeNodeFromList_Fail|].
    eexists. split; [by eapply addNodeToList_eq|].
    unfold parent_of. rewrite with_parent_lookup, decide_True by done.
    by rewrite Hr'.
Qed.

Lemma filter_put1 (l : list N) pos (I : N) :
  I ∉ l → filter (λ x, x ≠ I) (take pos l ++ I :: drop pos l) = l.
Proof.
  intros Hin.
  assert (∀ k : list N, I ∉ k → filter (λ x, x ≠ I) k = k) as Hid.
  { intros k Hk. induction k as [|x k IH]; [done|].
    apply not_elem_of_cons in Hk as [Hx Hk].
    rewrite filter_cons_True by done. by rewrite IH. }
  rewrite filter_app, filter_cons_False by (by intros ?).
  rewrite !Hid.
  - apply take_drop.
  - intros H. apply Hin. by apply (subseteq_drop pos l).
  - intros H. apply Hin. by apply (subseteq_take pos l).
Qed.

(** X5: in a consistent store, inserting an instruction into a block and
    then calling [removeFromParent] on it returns and gives back the block
    lists and the instructions exactly as they were. *)
Theorem insert_removeFromParent_round_trip (B : BlockId) (pos : nat) (I : InstId)
    (σ σ1 : State) :
  wf σ → iplist_insert B pos I σ = Ok (tt, σ1) →
  ∃ σ2, removeFromParent I σ1 = Ok (tt, σ2) ∧
        Insts σ2 = Insts σ ∧ Blocks σ2 = Blocks σ.
Proof.
  intros Hwf (r & l & Hr & Hp & Hl & Hpos & ->)%iplist_insert_Ok.
  assert (I ∉ l) as Hfresh.
  { intros Hin. eapply (wf_unlinked σ I r Hwf Hr Hp B). by exists l. }
  destruct (removeFromParent_eq I (inserted B pos I l σ)
              (set_ParentBB (Some B) r) B (take pos l ++ I :: drop pos l))
    as [Hrem _].
  - change (Insts (inserted B pos I l σ)) with (Insts (with_parent I (Some B) σ)).
    by rewrite with_parent_lookup, decide_True, Hr.
  - done.
  - apply lookup_insert_eq.
  - apply elem_of_put1. by right.
  - eexists. split; [exact Hrem|]. split.
    + change (Insts (removed B I (take pos l ++ I :: drop pos l)
                       (inserted B pos I l σ)))
        with (Insts (with_parent I None (with_parent I (Some B) σ))).
      rewrite <- Hp. by apply with_parent_undo.
    + simpl. rewrite insert_insert_eq, filter_put1 by done. by apply insert_id.
Qed.

(** X6: on a live instruction of a consistent store, [removeFromParent] and
    [eraseFromParent] return exactly when the instruction is linked into a
    block. *)
Theorem unlink_returns_iff_linked (σ : State) (I : InstId) :
  wf σ → is_Some (Insts σ !! I) →
  ((∃ σ', removeFromParent I σ = Ok (tt, σ')) ↔ ∃ B, linked σ I B) ∧
  ((∃ σ', eraseFromParent I σ = Ok (tt, σ')) ↔ ∃ B, linked σ I B).
Proof.
  intros Hwf [r Hr].
  assert ((∃ B, linked σ I B) →
          ∃ B l, ParentBB r = Some B ∧ Blocks σ !! B = Some l ∧ I ∈ l) as Hlink.
  { intros [B Hl]. pose proof Hl as (l & HB & Hin). exists B, l.
    split; [|done]. by apply (wf_parent σ Hwf I r B Hr). }
  split; split.
  - intros [σ' H]. unfold removeFromParent in H.
    apply bind_Ok in H as (B & σ1 & (r' & Hr' & Hp & ->)%getParent_Ok & H).
    apply iplist_remove_Ok in H as (? & l & _ & _ & Hl & Hin & _).
    exists B. by exists l.
  - intros (B & l & Hp & HB & Hin)%Hlink. eexists.
    by eapply removeFromParent_eq.
  - intros [σ' H]. unfold eraseFromParent in H.
    apply bind_Ok in H as (B & σ1 & (r' & Hr' & Hp & ->)%getParent_Ok & H).
    apply iplist_erase_Ok in H as (? & l & _ & _ & Hl & Hin & _).
    exists B. by exists l.
  - intros (B & l & Hp & HB & Hin)%Hlink. eexists.
    by eapply eraseFromParent_eq.
Qed.

(** X7: in every state a client can reach, the list of a block holds no
    instruction twice, no instruction is in the lists of two blocks, the
    parent pointer of an instruction names the very block whose list holds
    it, and every instruction in a list is a live object. *)
Theorem membership_unique (ly : Layout) (σ : State) :
  Layout_ok ly → reachable ly σ →
  (∀ B l, Blocks σ !! B = Some l → NoDup l) ∧
  (∀ I B1 B2, linked σ I B1 → linked σ I B2 → B1 = B2) ∧
  (∀ I B, linked σ I B → parent_of σ I = Some B) ∧
  (∀ I B, parent_of σ I = Some B → linked σ I B).
Proof.
  intros Hly Hreach. pose proof (wf_reachable ly σ Hly Hreach) as Hwf.
  assert (∀ I B, linked σ I B → parent_of σ I = Some B) as Hpar.
  { intros I B Hl. pose proof Hl as (l & HB & Hin).
    destruct (wf_live σ Hwf B l I HB Hin) as [r Hr].
    unfold parent_of. rewrite Hr. simpl. by apply (wf_parent σ Hwf I r B Hr). }
  split; [apply Hwf|]. split; [|split; [done|]].
  - intros I B1 B2 H1%Hpar H2%Hpar. congruence.
  - intros I B. unfold parent_of.
    destruct (Insts σ !! I) as [r|] eqn:Hr; [|done]. simpl.
    by apply (wf_parent σ Hwf I r B Hr).
Qed.

(** ** Splicing there and back *)

Lemma rest_put_back {A} (src : list A) first last :
  (first ≤ last)%nat → (last ≤ length src)%nat →
  let rest := take first src ++ drop last src in
  take first rest ++ take (last - first) (drop first src) ++ drop first rest = src.
Proof.
  intros H1 H2 rest. subst rest.
  assert (length (take first src) = first) as Hlen by (rewrite length_take; lia).
  rewrite take_app_length', drop_app_length' by done.
  symmetry. by apply split_run.
Qed.

Lemma run_of_put {A} (run dst : list A) pos :
  (pos ≤ length dst)%nat →
  take (pos + length run - pos) (drop pos (take pos dst ++ run ++ drop pos dst)) = run.
Proof.
  intros Hpos. rewrite drop_app_length' by (rewrite length_take; lia).
  rewrite take_app_length' by lia. done.
Qed.

(** X8: in a consistent store, moving a run of block [B1] into another
    block [B2] and then moving the run of the same length from where it now
    is in [B2] back to its old position in [B1] returns, and gives back the
    block lists and the instructions, parent pointers included, exactly as
    they were. *)
Theorem splice_there_and_back (B1 B2 : BlockId) (pos first last : nat)
    (σ σ1 : State) (src dst : list InstId) :
  wf σ → B1 ≠ B2 →
  Blocks σ !! B1 = Some src → Blocks σ !! B2 = Some dst →
  iplist_splice B2 pos B1 first last σ = Ok (tt, σ1) →
  ∃ σ2, iplist_splice B1 first B2 pos (pos + (last - first)) σ1 = Ok (tt, σ2) ∧
        Insts σ2 = Insts σ ∧ Blocks σ2 = Blocks σ.
Proof.
  intros Hwf Hne Hsrc Hdst H.
  pose proof H as (src' & dst' & Hsrc' & H1 & H2 & Hdst' & Hpos & _)%iplist_splice_Ok.
  rewrite lookup_insert_ne in Hdst' by done.
  assert (src' = src) as -> by congruence. assert (dst' = dst) as -> by congruence.
  set (run := take (last - first) (drop first src)) in *.
  set (rest := take first src ++ drop last src) in *.
  set (put := take pos dst ++ run ++ drop pos dst) in *.
  assert (length run = (last - first)%nat) as Hlen by (by apply length_run).
  assert (∀ I, I ∈ run → is_Some (Insts σ !! I)) as Hlive.
  { intros I HI. apply (wf_live σ Hwf B1 src I Hsrc). by eapply elem_of_run. }
  rewrite (iplist_splice_eq B2 pos B1 first last σ src dst Hsrc H1 H2) in H;
    [|by rewrite lookup_insert_ne|done].
  rewrite transfer_relinked in H by (try done; by auto).
  injection H as <-. fold run.
  set (σ1 := with_parents B2 run _).
  assert (Blocks σ1 = <[B2 := put]> (<[B1 := rest]> (Blocks σ))) as HB1.
  { unfold σ1. by rewrite with_parents_Blocks. }
  assert (take (pos + (last - first) - pos) (drop pos put) = run) as Hrun2.
  { rewrite <- Hlen. by apply run_of_put. }
  assert (take pos put ++ drop (pos + (last - first)) put = dst) as Hdst2.
  { rewrite <- Hlen. by apply outside_put. }
  assert (length put = (length dst + (last - first))%nat) as Hput.
  { unfold put. rewrite !length_app, length_take, length_drop. lia. }
  assert (length rest = (length src - (last - first))%nat) as Hrest
    by (by apply length_rest).
  eexists. split; [|split].
  - rewrite (iplist_splice_eq B1 first B2 pos (pos + (last - first)) σ1 put rest).
    + rewrite transfer_relinked; [done|done|lia|lia|lia|].
      intros I HI. rewrite Hrun2 in HI. unfold σ1.
      apply with_parents_is_Some. by apply Hlive.
    + rewrite HB1. apply lookup_insert_eq.
    + lia.
    + lia.
    + rewrite lookup_insert_ne, HB1, lookup_insert_ne by done.
      apply lookup_insert_eq.
    + lia.
  - apply map_eq. intros J. rewrite with_parents_lookup. simpl.
    unfold σ1. rewrite with_parents_lookup. simpl. rewrite Hrun2.
    case_decide as HJ; [|done].
    destruct (Hlive J HJ) as [r Hr]. rewrite Hr. simpl. f_equal.
    destruct r as [k tys loc p m]. unfold set_ParentBB. simpl. f_equal.
    symmetry. apply (wf_parent σ Hwf J _ B1 Hr). exists src.
    split; [done|]. by eapply elem_of_run.
  - assert (take first rest ++ run ++ drop first rest = src) as Hback
      by apply (rest_put_back src first last H1 H2).
    rewrite with_parents_Blocks. simpl. rewrite HB1, Hrun2, Hdst2, Hback.
    apply map_eq. intros J.
    destruct (decide (J = B1)) as [->|HJ1].
    { by rewrite lookup_insert_eq. }
    rewrite lookup_insert_ne by done.
    destruct (decide (J = B2)) as [->|HJ2].
    { by rewrite lookup_insert_eq. }
    by rewrite !lookup_insert_ne.
Qed.

(** ** The types of apply and closure *)

Lemma Value_getType_obj this r es σ t :
  Types r !! 0%nat = Some t →
  Value_getType (mkValue this 0) (obj this r es σ) = Ok (t, obj this r es σ).
Proof.
  intros Ht. unfold Value_getType. simpl.
  rewrite (bind_eq _ _ _ _ _ (deref_obj _ _ _ _)). by rewrite Ht.
Qed.

(** X9: with a callee whose type can be read, [ApplyInst::create] returns
    when that type is a function type, and the type of the new instruction
    is then the result type of the function; on a callee of any other type
    it stops in the assertion of the checked cast.  [ClosureInst::create]
    returns for every such callee, and the type of the closure is the type
    of the callee. *)
Theorem apply_closure_types (ly : Layout) (σ : State) (loc : SILLocation)
    (Callee : Value) (Args : list Value) (t : Ty) :
  Layout_ok ly → Value_getType Callee σ = Ok (t, σ) →
  (∀ i o, t = FunctionType i o →
     ∃ this σ', ApplyInst_create ly loc Callee Args σ = Ok (this, σ') ∧
                Value_getType (mkValue this 0) σ' = Ok (o, σ')) ∧
  ((∀ i o, t ≠ FunctionType i o) →
     ApplyInst_create ly loc Callee Args σ =
     Fail (AssertionFailure "cast<Ty>() argument of incompatible type!")) ∧
  (∃ this σ', ClosureInst_create ly loc Callee Args σ = Ok (this, σ') ∧
              Value_getType (mkValue this 0) σ' = Ok (t, σ')).
Proof.
  intros Hly Hty. pose proof Hly as (Hsize & Halign & Hval & Hsub).
  split; [|split].
  - intros i o ->.
    destruct (FunctionInst_create_eq ly ApplyInst
                (λ this, ApplyInst_ctor ly this loc Callee Args) Args σ
                (mkInstruction ApplyInst [o] loc None
                   (FunctionInstMembers Callee (length Args) (Some <$> Args))) Hly)
      as (this & σ' & Hc & σa & ->).
    { intros this σa Hbuf HI. unfold ApplyInst_ctor.
      rewrite (bind_eq _ _ _ _ _ (Value_getType_frame _ _ _ σa Hty HI)).
      cbn [castTo_FunctionType]. rewrite bind_ret. simpl.
      by apply FunctionInst_ctor_eq. }
    exists this. eexists. split; [exact Hc|]. by apply Value_getType_obj.
  - intros Hnot. unfold ApplyInst_create, FunctionInst_create.
    assert (alignofInst ly ApplyInst ≠ 0) as Hne
      by (specialize (Halign ApplyInst); lia).
    rewrite (bind_eq _ _ _ _ _ (allocate_eq _ _ _ Hne)).
    apply bind_Fail. unfold ApplyInst_ctor.
    erewrite bind_eq; [|by eapply Value_getType_frame].
    apply bind_Fail. destruct t; try done. by destruct (Hnot t1 t2).
  - destruct (FunctionInst_create_eq ly ClosureInst
                (λ this, ClosureInst_ctor ly this loc Callee Args) Args σ
                (mkInstruction ClosureInst [t] loc None
                   (FunctionInstMembers Callee (length Args) (Some <$> Args))) Hly)
      as (this & σ' & Hc & σa & ->).
    { intros this σa Hbuf HI. unfold ClosureInst_ctor.
      rewrite (bind_eq _ _ _ _ _ (Value_getType_frame _ _ _ σa Hty HI)).
      by apply FunctionInst_ctor_eq. }
    exists this. eexists. split; [exact Hc|]. by apply Value_getType_obj.
Qed.

(** ** The constructor and the size of its buffer *)



(** ** What the constructors establish holds in every reachable state *)

Lemma inst_ok_same this r r' : same_but_parent r r' → inst_ok this r → inst_ok this r'.
Proof. intros (Hk & Ht & Hl & Hm). unfold inst_ok. by rewrite Hk, Ht, Hl, Hm. Qed.

Lemma all_ok_parents_only σ σ' : parents_only σ σ' → all_ok σ → all_ok σ'.
Proof.
  intros Hp Hok I r' Hr'. specialize (Hp I). rewrite Hr' in Hp.
  inversion Hp as [r r0 Hs Hr|]; subst. symmetry in Hr.
  eapply inst_ok_same; [exact Hs|]. by apply Hok.
Qed.

Lemma operator_new_inv Size Align ctor σ this σ' :
  operator_new Size Align ctor σ = Ok (this, σ') →
  ∃ u, ctor this (allocated this Size σ) = Ok (u, σ').
Proof.
  unfold operator_new. intros H.
  apply bind_Ok in H as (Buffer & σ1 & (Ha & HB & ->)%allocate_Ok & H).
  apply bind_Ok in H as (u & σ2 & Hc & [= <- <-]). by exists u.
Qed.

Lemma all_ok_obj this r es σ : all_ok σ → inst_ok this r → all_ok (obj this r es σ).
Proof.
  intros Hok Hr I r'. simpl. destruct (decide (I = this)) as [->|Hne].
  - rewrite lookup_insert_eq. by intros [= <-].
  - rewrite lookup_insert_ne by done. apply Hok.
Qed.

Lemma all_ok_creates ly op σ σ' :
  Layout_ok ly → creates op = true → run ly op σ = Ok (tt, σ') →
  all_ok σ → all_ok σ'.
Proof.
  intros (Hsize & Halign & Hval & Hsub) Hop H Hok.
  assert (∀ this Size, is_Some (Buffers (allocated this Size σ) !! this)) as Hbuf.
  { intros this Size. eexists. apply allocated_Buffers. }
  assert (∀ this Size, all_ok (allocated this Size σ)) as Hoka by (intros ??; exact Hok).
  destruct op; try discriminate Hop; simpl in H.
  all: apply bind_Ok in H as (this & σ1 & H & [= <-]).
  all: apply operator_new_inv in H as [[] H].
  - unfold ApplyInst_ctor in H.
    apply bind_Ok in H as (t & σ2 & ->%Value_getType_pure & H).
    apply bind_Ok in H as (ft & σ2 & Hc & H).
    pose proof (castTo_FunctionType_pure _ _ _ _ Hc) as ->.
    rewrite FunctionInst_ctor_eq in H by (done || apply allocated_Buffers).
    injection H as <-. apply all_ok_obj; [done|].
    unfold inst_ok. simpl. by eexists _, _.
  - unfold ClosureInst_ctor in H.
    apply bind_Ok in H as (t & σ2 & ->%Value_getType_pure & H).
    rewrite FunctionInst_ctor_eq in H by (done || apply allocated_Buffers).
    injection H as <-. apply all_ok_obj; [done|].
    unfold inst_ok. simpl. by eexists _, _.
  - rewrite SpecializeInst_ctor_eq in H by (done || apply allocated_Buffers).
    injection H as <-. apply all_ok_obj; [done|].
    unfold inst_ok. simpl. by eexists _, _.
  - rewrite TupleInst_ctor_eq in H by (done || apply allocated_Buffers).
    injection H as <-. apply all_ok_obj; [done|].
    unfold inst_ok. simpl. by eexists.
  - unfold IntegerLiteralInst_ctor_int in H.
    rewrite Instruction_ctor_eq in H by done.
    injection H as <-. apply all_ok_obj; [done|].
    unfold inst_ok. simpl. eexists. split; [done|]. left. by eexists.
  - unfold IntegerLiteralInst_ctor_char in H.
    rewrite Instruction_ctor_eq in H by done.
    injection H as <-. apply all_ok_obj; [done|].
    unfold inst_ok. simpl. eexists. split; [done|]. right. by eexists.
  - rewrite UnreachableInst_ctor_eq in H by done.
    injection H as <-. by apply all_ok_obj.
  - rewrite ReturnInst_ctor_eq in H by done.
    injection H as <-. by apply all_ok_obj.
  - rewrite BranchInst_ctor_eq in H by done.
    injection H as <-. apply all_ok_obj; [done|].
    unfold inst_ok. simpl. by eexists.
  - rewrite CondBranchInst_ctor_eq in H by done.
    injection H as <-. apply all_ok_obj; [done|].
    unfold inst_ok, CondBranchInst_built. simpl. by eexists _, _, _.
Qed.

Lemma all_ok_run ly op σ σ' :
  Layout_ok ly → run ly op σ = Ok (tt, σ') → all_ok σ → all_ok σ'.
Proof.
  intros Hly H Hok.
  destruct (creates op) eqn:Hc; [by eapply all_ok_creates|].
  destruct (relinks op) eqn:Hr.
  { eapply all_ok_parents_only; [|exact Hok].
    by eapply relinks_parents_only. }
  destruct op; try discriminate; simpl in H.
  - apply BasicBlock_ctor_Ok in H as [_ ->]. exact Hok.
  - apply bind_Ok in H as (B & σ1 & (r & _ & _ & ->)%getParent_Ok & H).
    apply iplist_erase_Ok in H as (r' & l & _ & _ & _ & _ & ->).
    intros J rJ. simpl. intros [HJ Hlook]%lookup_delete_Some.
    rewrite lookup_alter_ne in Hlook by done. by apply Hok.
Qed.

Lemma all_ok_reachable ly σ : Layout_ok ly → reachable ly σ → all_ok σ.
Proof.
  intros Hly Hreach. induction Hreach as [|σ op σ' _ IH Hrun].
  - intros I r. simpl. by rewrite lookup_empty.
  - by eapply all_ok_run.
Qed.


(** X12: in every state a client can reach, a live integer-literal
    instruction has an expression behind it and that expression's type as
    its own, and [getValue] returns on it: the value of the expression for
    an integer literal, a value of 32 bits for a character literal.
    [llvm_unreachable] is not reached. *)
Theorem reachable_getValue (ly : Layout) (σ : State) (this : InstId)
    (r : Instruction) :
  Layout_ok ly → reachable ly σ →
  Insts σ !! this = Some r → Kind r = IntegerLiteralInst →
  ∃ E v, Loc r = LocExpr E ∧ Types r = [Expr_getType E] ∧
         IntegerLiteralInst_getValue this σ = Ok (v, σ) ∧
         ((∃ ty, E = IntegerLiteralExpr ty v) ∨
          (∃ ty c, E = CharacterLiteralExpr ty c ∧
                   BitWidth v = 32 ∧ (0 ≤ Bits v < 2 ^ 32)%Z)).
Proof.
  intros Hly Hreach Hr Hk.
  pose proof (all_ok_reachable ly σ Hly Hreach this r Hr) as Hok.
  unfold inst_ok in Hok. rewrite Hk in Hok.
  destruct Hok as (ty & HT & [[v HL]|[c HL]]).
  - exists (IntegerLiteralExpr ty v), v. split; [done|]. split; [done|].
    rewrite (IntegerLiteralInst_getValue_eq this σ r _ Hr HL).
    split; [done|]. left. by exists ty.
  - exists (CharacterLiteralExpr ty c), (APInt_of 32 c).
    split; [done|]. split; [done|].
    rewrite (IntegerLiteralInst_getValue_eq this σ r _ Hr HL).
    split; [done|]. right. exists ty, c. split; [done|]. split; [done|].
    simpl. by apply Z.mod_pos_bound.
Qed.

(** X13: in every state a client can reach, a live apply, closure or tuple
    instruction has a count, every index below the count reads back a value,
    and every index from the count on stops in the bounds assertion; the
    same holds of the substitutions of a live specialize instruction.  No
    read below the count meets an unwritten slot. *)
Theorem reachable_operands (ly : Layout) (σ : State) (this : InstId)
    (r : Instruction) :
  Layout_ok ly → reachable ly σ → Insts σ !! this = Some r →
  (Kind r = ApplyInst ∨ Kind r = ClosureInst ∨ Kind r = TupleInst →
     ∃ n, getNumElements this σ = Ok (n, σ) ∧
          (∀ i, (i < n)%nat → ∃ v, getOperand this i σ = Ok (v, σ)) ∧
          (∀ i, (n ≤ i)%nat →
             getOperand this i σ = Fail (AssertionFailure "Invalid index!"))) ∧
  (Kind r = SpecializeInst →
     ∃ n, getNumElements this σ = Ok (n, σ) ∧
          (∀ i, (i < n)%nat → ∃ s, getSubstitution this i σ = Ok (s, σ)) ∧
          (∀ i, (n ≤ i)%nat →
             getSubstitution this i σ = Fail (AssertionFailure "Invalid index!"))).
Proof.
  intros Hly Hreach Hr.
  pose proof (all_ok_reachable ly σ Hly Hreach this r Hr) as Hok.
  unfold inst_ok in Hok.
  assert (∀ E (l : list E) i, (i < length l)%nat →
            ∃ x, read_slot (length l) (Some <$> l) i σ = Ok (x, σ)) as Hin.
  { intros E l i Hi. destruct (lookup_lt_is_Some_2 l i Hi) as [x Hx].
    exists x. by apply read_slot_eq. }
  assert (∀ E (l : list E) i, (length l ≤ i)%nat →
            read_slot (length l) (Some <$> l) i σ
            = Fail (AssertionFailure "Invalid index!")) as Hout.
  { intros E l i Hi. unfold read_slot. by rewrite bool_decide_eq_false_2 by lia. }
  unfold getNumElements, getOperand, getSubstitution.
  rewrite !(bind_eq _ _ _ _ _ (deref_eq _ _ _ Hr)).
  split.
  - intros [Hk|[Hk|Hk]]; rewrite Hk in Hok.
    + destruct Hok as (c & l & HF). exists (length l). rewrite HF.
      split; [done|].
      split; intros i Hi; rewrite (bind_eq _ _ _ _ _ (deref_eq _ _ _ Hr)), HF;
        [by apply Hin | by apply Hout].
    + destruct Hok as (c & l & HF). exists (length l). rewrite HF.
      split; [done|].
      split; intros i Hi; rewrite (bind_eq _ _ _ _ _ (deref_eq _ _ _ Hr)), HF;
        [by apply Hin | by apply Hout].
    + destruct Hok as (l & HF). exists (length l). rewrite HF.
      split; [done|].
      split; intros i Hi; rewrite (bind_eq _ _ _ _ _ (deref_eq _ _ _ Hr)), HF;
        [by apply Hin | by apply Hout].
  - intros Hk. rewrite Hk in Hok. destruct Hok as (o & l & HF).
    exists (length l). rewrite HF. split; [done|].
    split; intros i Hi; rewrite (bind_eq _ _ _ _ _ (deref_eq _ _ _ Hr)), HF;
      [by apply Hin | by apply Hout].
Qed.

(** ** The further properties at work on the small function *)

Lemma demo_live I : I ∈ [96; 192; 240; 144] → is_Some (Insts demo !! I).
Proof. intros HI. by apply (wf_live demo demo_wf 1 [96; 192; 240; 144] I). Qed.

Lemma demo_tuple_reachable : reachable lp64 demo_tuple.
Proof.
  apply (reachable_step lp64 demo demo_tuple_op); [exact demo_reachable|].
  vm_compute. reflexivity.
Qed.

Lemma relinking_keeps_contents_witness :
  answer (getSuccessors 144 demo_spliced) = answer (getSuccessors 144 demo) ∧
  answer (IntegerLiteralInst_getValue 96 demo_spliced) =
    answer (IntegerLiteralInst_getValue 96 demo).
Proof.
  destruct (relinking_keeps_contents lp64 (Splice 2 0 1 0 2) demo demo_spliced)
    as (_ & _ & _ & H); [reflexivity | vm_compute; reflexivity |].
  split; [apply (H 144) | apply (H 96)].
Defined.

Lemma construction_keeps_others_witness :
  Blocks demo_tuple = Blocks demo ∧
  ∃ this r', ArenaNext demo ≤ this ∧ Insts demo !! this = None ∧
             Insts demo_tuple !! this = Some r' ∧ ParentBB r' = None.
Proof.
  destruct (construction_keeps_others lp64 demo_tuple_op demo demo_tuple)
    as (HB & this & r' & Hge & Hnone & Hr' & Hp & _);
    [exact demo_wf | reflexivity | vm_compute; reflexivity |].
  split; [exact HB|]. exists this, r'. repeat split; assumption.
Defined.

Lemma transferNodesFromList_range_witness :
  (∃ σ', transferNodesFromList 1 2 1 3 demo = Ok (tt, σ')) ∧
  transferNodesFromList 1 2 1 5 demo = Fail Undefined ∧
  transferNodesFromList 1 2 3 1 demo = Fail Undefined.
Proof.
  split; [|split].
  - apply (transferNodesFromList_range 1 2 1 3 demo [96; 192; 240; 144]);
      [discriminate | reflexivity | exact demo_live | simpl; lia].
  - apply (transferNodesFromList_range 1 2 1 5 demo [96; 192; 240; 144]);
      [discriminate | reflexivity | exact demo_live | simpl; lia].
  - apply (transferNodesFromList_range 1 2 3 1 demo [96; 192; 240; 144]);
      [discriminate | reflexivity | exact demo_live | simpl; lia].
Defined.

Lemma add_remove_compose_witness :
  ∃ σ', addNodeToList 2 0 demo = Ok (tt, σ') ∧
        addNodeToList 1 0 σ' = Fail (AssertionFailure "Already in a list!") ∧
        ∃ σ'', removeNodeFromList 1 0 σ' = Ok (tt, σ'') ∧ Insts σ'' = Insts demo.
Proof.
  eexists. split; [vm_compute; reflexivity|].
  apply (proj1 (add_remove_compose 2 1 0 demo _)). vm_compute. reflexivity.
Defined.

Lemma insert_removeFromParent_round_trip_witness :
  ∃ σ1, iplist_insert 2 1 0 demo = Ok (tt, σ1) ∧
        ∃ σ2, removeFromParent 0 σ1 = Ok (tt, σ2) ∧
              Insts σ2 = Insts demo ∧ Blocks σ2 = Blocks demo.
Proof.
  eexists. split; [vm_compute; reflexivity|].
  apply (insert_removeFromParent_round_trip 2 1 0 demo _ demo_wf).
  vm_compute. reflexivity.
Defined.

Lemma unlink_returns_iff_linked_witness :
  ((∃ σ', removeFromParent 0 demo = Ok (tt, σ')) ↔ ∃ B, linked demo 0 B) ∧
  ((∃ σ', eraseFromParent 96 demo = Ok (tt, σ')) ↔ ∃ B, linked demo 96 B).
Proof.
  split.
  - apply (unlink_returns_iff_linked demo 0 demo_wf). eexists. reflexivity.
  - apply (unlink_returns_iff_linked demo 96 demo_wf). eexists. reflexivity.
Defined.

Lemma membership_unique_witness :
  NoDup [96; 192; 240; 144] ∧ parent_of demo 96 = Some 1 ∧ linked demo 48 2.
Proof.
  destruct (membership_unique lp64 demo lp64_ok demo_reachable)
    as (Hnd & _ & Hpar & Hlink).
  split; [apply (Hnd 1); reflexivity|].
  split; [|apply Hlink; reflexivity].
  apply Hpar. exists [96; 192; 240; 144]. split; [reflexivity|]. by left.
Defined.

Lemma splice_there_and_back_witness :
  ∃ σ2, iplist_splice 1 0 2 0 2 demo_spliced = Ok (tt, σ2) ∧
        Insts σ2 = Insts demo ∧ Blocks σ2 = Blocks demo.
Proof.
  apply (splice_there_and_back 1 2 0 0 2 demo demo_spliced
           [96; 192; 240; 144] [48] demo_wf);
    [discriminate | reflexivity | reflexivity | vm_compute; reflexivity].
Defined.

Lemma apply_closure_types_witness :
  (∃ this σ', ApplyInst_create lp64 LocNone (mkValue 0 0) [mkValue 0 0] demo_function
              = Ok (this, σ') ∧
              Value_getType (mkValue this 0) σ' = Ok (NominalType 1, σ')) ∧
  ApplyInst_create lp64 LocNone (mkValue 96 0) [] demo =
    Fail (AssertionFailure "cast<Ty>() argument of incompatible type!") ∧
  (∃ this σ', ClosureInst_create lp64 LocNone (mkValue 96 0) [] demo = Ok (this, σ') ∧
              Value_getType (mkValue this 0) σ' = Ok (NominalType 0, σ')).
Proof.
  destruct (apply_closure_types lp64 demo_function LocNone (mkValue 0 0) [mkValue 0 0]
              (FunctionType (NominalType 0) (NominalType 1)) lp64_ok)
    as (Hf & _ & _); [reflexivity|].
  destruct (apply_closure_types lp64 demo LocNone (mkValue 96 0) []
              (NominalType 0) lp64_ok)
    as (_ & Hn & Hc); [reflexivity|].
  split; [by apply (Hf (NominalType 0) (NominalType 1))|].
  split; [apply Hn; discriminate | exact Hc].
Defined.



Lemma reachable_getValue_witness :
  ∃ v, IntegerLiteralInst_getValue 192 demo = Ok (v, demo).
Proof.
  destruct (reachable_getValue lp64 demo 192
              (mkInstruction IntegerLiteralInst [NominalType 1]
                 (LocExpr (CharacterLiteralExpr (NominalType 1) 97)) (Some 1) NoMembers)
              lp64_ok demo_reachable)
    as (E & v & _ & _ & Hv & _); [reflexivity | reflexivity |].
  exists v. exact Hv.
Defined.

Lemma reachable_operands_witness :
  ∃ n, getNumElements 288 demo_tuple = Ok (n, demo_tuple) ∧
       (∀ i, (i < n)%nat → ∃ v, getOperand 288 i demo_tuple = Ok (v, demo_tuple)) ∧
       (∀ i, (n ≤ i)%nat →
          getOperand 288 i demo_tuple = Fail (AssertionFailure "Invalid index!")).
Proof.
  destruct (reachable_operands lp64 demo_tuple 288
              (mkInstruction TupleInst [TheEmptyTupleType] LocNone None
                 (TupleInstMembers 3 [Some (mkValue 96 0); Some (mkValue 192 0);
                                      Some (mkValue 240 0)]))
              lp64_ok demo_tuple_reachable)
    as (H & _); [reflexivity|].
  apply H. right. right. reflexivity.
Defined.
